(** * Kids-Video: the retry wrapper, the text segmentation heuristic,
      the image naming and the default metadata, embedded and verified.

    Python [str] values are modelled as lists of one-byte code points
    ([list ascii], the Latin-1 range); the character classes below are
    Python's [str.isspace], [str.isdecimal] and [str.lower] on that range.
    Python's [re] module is modelled by a backtracking matcher over the
    fragment of the pattern language the program's patterns are written in. *)

From Stdlib Require Import List Ascii String Bool Arith NArith ZArith QArith Lia.
From Stdlib Require Import PrimFloat Uint63 FloatOps SpecFloat.
From Stdlib Require Import Sorted Permutation DecimalString DecimalNat.
Import ListNotations.

Close Scope Q_scope.
Local Open Scope nat_scope.
Local Open Scope list_scope.

(* ------------------------------------------------------------------ *)
(** ** Python strings *)

Module PyStr.

Definition str := list ascii.

(** A literal, written as a Rocq string. *)
Definition lit (s : string) : str := list_ascii_of_string s.

Definition nl : ascii := ascii_of_nat 10.

Definition code (c : ascii) : nat := nat_of_ascii c.

Definition between (lo hi : nat) (c : ascii) : bool :=
  (lo <=? code c) && (code c <=? hi).

(** [str.isspace] for one character: TAB..CR, FS..US, SPACE, NEL, NBSP. *)
Definition isspace (c : ascii) : bool :=
  between 9 13 c || between 28 32 c || (code c =? 133) || (code c =? 160).

(** [str.isdecimal] for one character. *)
Definition isdecimal (c : ascii) : bool := between 48 57 c.

Definition isupper_ascii (c : ascii) : bool := between 65 90 c.
Definition islower_ascii (c : ascii) : bool := between 97 122 c.

(** [str.lower] for one character: A-Z and the Latin-1 capitals
    (U+00C0..U+00DE without the multiplication sign U+00D7). *)
Definition lower_char (c : ascii) : ascii :=
  if isupper_ascii c || (between 192 222 c && negb (code c =? 215))
  then ascii_of_nat (code c + 32) else c.

Definition lower (s : str) : str := map lower_char s.

Fixpoint lstrip (s : str) : str :=
  match s with
  | c :: s' => if isspace c then lstrip s' else s
  | [] => []
  end.

Definition rstrip (s : str) : str := rev (lstrip (rev s)).

(** [s.strip()] *)
Definition strip (s : str) : str := rstrip (lstrip s).

Definition eqb_char (a b : ascii) : bool := Ascii.eqb a b.

(** [s.startswith(p)] *)
Fixpoint startswith (p s : str) : bool :=
  match p, s with
  | [], _ => true
  | a :: p', b :: s' => eqb_char a b && startswith p' s'
  | _ :: _, [] => false
  end.

(** [p in s] *)
Fixpoint contains (p s : str) : bool :=
  startswith p s ||
  match s with
  | [] => false
  | _ :: s' => contains p s'
  end.

(** [s.split()]: the maximal runs of non-whitespace characters. *)
Fixpoint split_ws_go (s : str) (cur : str) : list str :=
  match s with
  | [] => match cur with [] => [] | _ => [rev cur] end
  | c :: s' =>
      if isspace c
      then match cur with
           | [] => split_ws_go s' []
           | _ => rev cur :: split_ws_go s' []
           end
      else split_ws_go s' (c :: cur)
  end.

Definition split_ws (s : str) : list str := split_ws_go s [].

(** [s.replace(old, new)]: the occurrences of [old], left to right and
    not overlapping; [skip] counts the characters of an occurrence still
    to be passed over. *)
Fixpoint replace_go (old new s : str) (skip : nat) : str :=
  match s with
  | [] => []
  | c :: s' =>
      match skip with
      | S k => replace_go old new s' k
      | O => if startswith old s
             then new ++ replace_go old new s' (List.length old - 1)
             else c :: replace_go old new s' 0
      end
  end.

Definition replace (old new s : str) : str :=
  match old with
  | [] => new ++ flat_map (fun c => c :: new) s
  | _ => replace_go old new s 0
  end.

(** [sep.join(l)] *)
Fixpoint join (sep : str) (l : list str) : str :=
  match l with
  | [] => []
  | [x] => x
  | x :: l' => x ++ sep ++ join sep l'
  end.

(** Truth value of a string: non-empty. *)
Definition truthy (s : str) : bool :=
  match s with [] => false | _ => true end.

End PyStr.

(* ------------------------------------------------------------------ *)
(** ** Python's [re]: patterns, backtracking matcher, split, sub, search *)

Module Re.
Import PyStr.

(** The pattern language of the program's regular expressions.  Every
    repetition in them is over a single character or class, which is what
    [Star] and [Plus] take. *)
Inductive regex : Type :=
| Eps : regex                                 (* empty pattern *)
| Chr : ascii -> regex                        (* a literal character *)
| Cls : (ascii -> bool) -> regex              (* \s, \d, [...], . *)
| Bos : regex                                 (* ^ without MULTILINE *)
| Seq : regex -> regex -> regex
| Alt : regex -> regex -> regex               (* r1|r2, left first *)
| Star : bool -> (ascii -> bool) -> regex     (* c* (true) or c*? (false) *)
| Group : nat -> regex -> regex.              (* capturing group number n *)

Definition Plus (greedy : bool) (p : ascii -> bool) : regex :=
  Seq (Cls p) (Star greedy p).

(** [(?:r)?] *)
Definition Opt (r : regex) : regex := Alt r Eps.

Fixpoint Lit (s : str) : regex :=
  match s with
  | [] => Eps
  | [c] => Chr c
  | c :: s' => Seq (Chr c) (Lit s')
  end.

Definition Word (s : string) : regex := Lit (lit s).

(** Character classes. *)
Definition space : ascii -> bool := isspace.          (* \s *)
Definition digit : ascii -> bool := isdecimal.        (* \d *)
Definition dot (c : ascii) : bool := negb (eqb_char c nl).   (* . *)
Definition one_of (s : string) (c : ascii) : bool :=
  existsb (eqb_char c) (lit s).
Definition none_of (s : string) (c : ascii) : bool := negb (one_of s c).
Definition alnum_ascii (c : ascii) : bool :=        (* a-zA-Z0-9 *)
  islower_ascii c || isupper_ascii c || between 48 57 c.

(** The groups captured so far: group number and text. *)
Definition captures := list (nat * str).

Fixpoint get_group (n : nat) (cs : captures) : option str :=
  match cs with
  | [] => None
  | (m, s) :: cs' => if m =? n then Some s else get_group n cs'
  end.

Section Matcher.
Context {A : Type}.

(** A continuation receives the position reached, the rest of the text
    and the captures. *)
Definition cont := nat -> str -> captures -> option A.

Definition orelse (a b : option A) : option A :=
  match a with Some _ => a | None => b end.

(** Greedy repetition of a class: longest first, giving back one
    character at a time. *)
Fixpoint star_greedy (p : ascii -> bool) (pos : nat) (s : str)
         (k : nat -> str -> option A) : option A :=
  match s with
  | c :: s' =>
      if p c then orelse (star_greedy p (S pos) s' k) (k pos s) else k pos s
  | [] => k pos []
  end.

(** Lazy repetition: shortest first, taking one more character at a time. *)
Fixpoint star_lazy (p : ascii -> bool) (pos : nat) (s : str)
         (k : nat -> str -> option A) : option A :=
  orelse (k pos s)
         match s with
         | c :: s' => if p c then star_lazy p (S pos) s' k else None
         | [] => None
         end.

(** [run r pos s cs k]: match [r] at position [pos], where the text left
    is [s], and go on with [k]; the first success in backtracking order. *)
Fixpoint run (r : regex) (pos : nat) (s : str) (cs : captures) (k : cont)
  : option A :=
  match r with
  | Eps => k pos s cs
  | Chr c =>
      match s with
      | d :: s' => if eqb_char c d then k (S pos) s' cs else None
      | [] => None
      end
  | Cls p =>
      match s with
      | d :: s' => if p d then k (S pos) s' cs else None
      | [] => None
      end
  | Bos => if pos =? 0 then k pos s cs else None
  | Seq r1 r2 => run r1 pos s cs (fun pos' s' cs' => run r2 pos' s' cs' k)
  | Alt r1 r2 => orelse (run r1 pos s cs k) (run r2 pos s cs k)
  | Star true p => star_greedy p pos s (fun pos' s' => k pos' s' cs)
  | Star false p => star_lazy p pos s (fun pos' s' => k pos' s' cs)
  | Group n r1 =>
      run r1 pos s cs
          (fun pos' s' cs' => k pos' s' ((n, firstn (pos' - pos) s) :: cs'))
  end.

End Matcher.

(** One match attempt at [pos]: the number of characters matched and the
    groups.  With [must_advance] an empty match is refused and the
    matcher backtracks into the next alternative. *)
Definition match_at (r : regex) (pos : nat) (s : str) (must_advance : bool)
  : option (nat * captures) :=
  run r pos s []
      (fun pos' _ cs =>
         if must_advance && (pos' =? pos) then None
         else Some (pos' - pos, cs)).

(** The scan shared by [re.split] and [re.sub]: the texts between the
    successive matches.  [skip] counts the characters of the current
    match still to be passed over, [cur] is the text since the last match
    (reversed). *)
Fixpoint pieces_go (r : regex) (pos : nat) (s : str) (skip : nat) (cur : str)
  : list str :=
  match skip with
  | S k =>
      match s with
      | [] => [rev cur]
      | _ :: s' => pieces_go r (S pos) s' k cur
      end
  | O =>
      match match_at r pos s false with
      | Some (S n, _) =>
          rev cur :: match s with
                     | [] => [[]]
                     | _ :: s' => pieces_go r (S pos) s' n []
                     end
      | Some (O, _) =>
          (* an empty match: the next attempt, at the same place, must
             advance *)
          rev cur ::
          match match_at r pos s true with
          | Some (S n, _) =>
              [] :: match s with
                    | [] => [[]]
                    | _ :: s' => pieces_go r (S pos) s' n []
                    end
          | _ =>
              match s with
              | [] => [[]]
              | c :: s' => pieces_go r (S pos) s' 0 [c]
              end
          end
      | None =>
          match s with
          | [] => [rev cur]
          | c :: s' => pieces_go r (S pos) s' 0 (c :: cur)
          end
      end
  end.

(** [re.split(r, s)] for a pattern without capturing groups. *)
Definition split (r : regex) (s : str) : list str := pieces_go r 0 s 0 [].

(** [re.sub(r, repl, s)] for a replacement text without group references. *)
Definition sub (r : regex) (repl : str) (s : str) : str :=
  join repl (pieces_go r 0 s 0 []).

(** [re.search(r, s)]: the groups of the leftmost match. *)
Fixpoint search_go (r : regex) (pos : nat) (s : str) : option captures :=
  match match_at r pos s false with
  | Some (_, cs) => Some cs
  | None =>
      match s with
      | [] => None
      | _ :: s' => search_go r (S pos) s'
      end
  end.

Definition search (r : regex) (s : str) : option captures := search_go r 0 s.

End Re.

Declare Scope re_scope.
Delimit Scope re_scope with re.
Notation "a +++ b" := (Re.Seq a b) (at level 60, right associativity) : re_scope.
Notation "a <|> b" := (Re.Alt a b) (at level 62, right associativity) : re_scope.

(* ------------------------------------------------------------------ *)
(** ** media/utils.py *)

Module Utils.
Import PyStr Re.
Local Open Scope re_scope.

Definition dquote : ascii := ascii_of_nat 34.
Definition squote : ascii := ascii_of_nat 39.
Definition in_chars (l : str) (c : ascii) : bool := existsb (eqb_char c) l.

(** Pattern 1:
    (?:Segment|SEGMENT|Scene|SCENE)\s+\d+(?:\s*[-:][^a-zA-Z0-9]*\s*[^QQ]+)?
    where QQ stands for the double and the single quote character. *)
Definition pattern_segment : regex :=
  (Word "Segment" <|> Word "SEGMENT" <|> Word "Scene" <|> Word "SCENE")
  +++ Plus true space +++ Plus true digit
  +++ Opt (Star true space +++ Cls (one_of "-:")
           +++ Star true (fun c => negb (alnum_ascii c))
           +++ Star true space
           +++ Plus true (fun c => negb (in_chars [dquote; squote] c))).

(** Pattern 2: (?:^|\n)\s*(?:\d+[\.\)\]]|\[\d+\])\s+ *)
Definition pattern_number : regex :=
  (Bos <|> Chr nl) +++ Star true space
  +++ ((Plus true digit +++ Cls (one_of ".)]"))
       <|> (Chr "["%char +++ Plus true digit +++ Chr "]"%char))
  +++ Plus true space.

(** Pattern 3: \[(?:Image|IMG|Picture|PIC)\s*\d+[^\]]*\] *)
Definition pattern_image : regex :=
  Chr "["%char
  +++ (Word "Image" <|> Word "IMG" <|> Word "Picture" <|> Word "PIC")
  +++ Star true space +++ Plus true digit
  +++ Star true (none_of "]") +++ Chr "]"%char.

Definition segment_patterns : list regex :=
  [pattern_segment; pattern_number; pattern_image].

(** \n\s*\n *)
Definition pattern_blank_line : regex :=
  Chr nl +++ Star true space +++ Chr nl.

(** \[(.*?)\] *)
Definition pattern_bracket : regex :=
  Chr "["%char +++ Group 1 (Star false dot) +++ Chr "]"%char.

(** [[s.strip() for s in l if s.strip()]] *)
Definition stripped_nonempty (l : list str) : list str :=
  map strip (filter (fun s => truthy (strip s)) l).

(** The pieces one pattern splits the text into, stripped, the empty ones
    left out. *)
Definition potential_segments (pattern : regex) (cleaned_text : str)
  : list str :=
  stripped_nonempty (Re.split pattern cleaned_text).

(** The loop over the patterns: the pieces of the first pattern that gives
    at least three, and the empty list when none does. *)
Fixpoint try_patterns (patterns : list regex) (cleaned_text : str) : list str :=
  match patterns with
  | [] => []
  | pattern :: rest =>
      if 3 <=? List.length (potential_segments pattern cleaned_text)
      then potential_segments pattern cleaned_text
      else try_patterns rest cleaned_text
  end.

Definition paragraphs (cleaned_text : str) : list str :=
  stripped_nonempty (Re.split pattern_blank_line cleaned_text).

Definition backticks : str := lit "```".

(** The test of the final loop: the segment is skipped. *)
Definition not_story (segment : str) : bool :=
  (List.length (split_ws segment) <? 5)
  || startswith (lit "Image generation:") segment
  || startswith (lit "Note:") segment
  || contains (lit "end of story") (lower segment)
  || contains backticks segment.

Definition clean (segment : str) : str :=
  let clean_segment := strip (replace backticks [] segment) in
  let clean_segment := Re.sub pattern_image [] clean_segment in
  Re.sub pattern_bracket [] clean_segment.

(** A segment the final loop keeps: it passes the test and is not empty
    once cleaned. *)
Definition kept (segment : str) : bool :=
  negb (not_story segment) && truthy (clean segment).

(** The final clean-up loop. *)
Fixpoint final_cleanup (segments : list str) : list str :=
  match segments with
  | [] => []
  | segment :: rest =>
      if not_story segment then final_cleanup rest
      else
        let clean_segment := clean segment in
        if truthy clean_segment
        then clean_segment :: final_cleanup rest
        else final_cleanup rest
  end.

(** The function returns a list of segments or one text. *)
Inductive story : Type :=
| Segments : list str -> story
| Text : str -> story.

Definition collect_complete_story (raw_text : str) (return_segments : bool)
  : story :=
  let cleaned_text := strip raw_text in
  let segments := try_patterns segment_patterns cleaned_text in
  let segments :=
    match segments with
    | [] => paragraphs cleaned_text
    | _ => segments
    end in
  let story_segments := final_cleanup segments in
  if return_segments then Segments story_segments
  else
    let full_story := join [nl; nl] story_segments in
    if (List.length full_story <? 100) && (100 <? List.length cleaned_text)
    then Text cleaned_text
    else Text full_story.

(** The call [collect_complete_story(raw_text, return_segments=True)]. *)
Definition story_segments_of (raw_text : str) : list str :=
  match collect_complete_story raw_text true with
  | Segments l => l
  | Text _ => []
  end.

End Utils.

(* ------------------------------------------------------------------ *)
(** ** ai/prompt_generator.py: [retry_api_call] *)

Module PromptGenerator.
Import PyStr.
Local Open Scope Z_scope.

(** config.py *)
Definition MAX_CONSECUTIVE_FAILURES : Z := 1000.
Definition RETRY_DELAY : Z := 10.

(** The exceptions the handlers tell apart, each with its message
    ([str(e)]); [OtherException] is any other subclass of [Exception],
    [NonException] one that is not (KeyboardInterrupt, SystemExit). *)
Inductive exn : Type :=
| ResourceExhaustedError : str -> exn
| InternalServerError : str -> exn
| InvalidArgumentError : str -> exn
| OtherException : str -> exn
| NameError : string -> exn
| NonException : str -> exn.

(** What one invocation of [retry_function] does. *)
Inductive outcome (V : Type) : Type :=
| Ret : V -> outcome V
| Raise : exn -> outcome V.
Arguments Ret {V} _.
Arguments Raise {V} _.

(** What [retry_api_call] does: it returns a value or None, or an
    exception leaves it. *)
Inductive result (V : Type) : Type :=
| Returned : option V -> result V
| Raised : exn -> result V.
Arguments Returned {V} _.
Arguments Raised {V} _.

(** The names bound in a module's global namespace. *)
Definition namespace := list string.

Definition bound (name : string) (g : namespace) : bool :=
  existsb (String.eqb name) g.

(** The names prompt_generator.py binds at module level: its imports, the
    constants imported from config and its two functions. *)
Definition module_globals : namespace :=
  ["os"; "time"; "random"; "genai"; "types"; "sys";
   "PROMPT_MODEL"; "SAFETY_SETTINGS"; "RETRY_DELAY";
   "MAX_CONSECUTIVE_FAILURES"; "retry_api_call"; "generate_prompt"]%string.

(** The local variables of [retry_api_call], with the number of
    invocations made and the delays slept (before jitter, latest first). *)
Record state : Type := mkState {
  failures : Z;
  retry_delay : Z;
  safety_retry : bool;          (* kwargs['safety_retry'] has been set *)
  calls : nat;
  sleeps : list Z
}.

Definition set_failures (f : Z) (st : state) : state :=
  mkState f (retry_delay st) (safety_retry st) (calls st) (sleeps st).
Definition set_retry_delay (d : Z) (st : state) : state :=
  mkState (failures st) d (safety_retry st) (calls st) (sleeps st).
Definition set_safety_retry (st : state) : state :=
  mkState (failures st) (retry_delay st) true (calls st) (sleeps st).
Definition count_call (st : state) : state :=
  mkState (failures st) (retry_delay st) (safety_retry st) (S (calls st))
          (sleeps st).
Definition sleep (st : state) : state :=
  mkState (failures st) (retry_delay st) (safety_retry st) (calls st)
          (retry_delay st :: sleeps st).

(** The except clauses, tried in order.  Each of the first three names
    its class through the global [custom_genai]; looking up a name that
    is not bound raises NameError, which leaves the try statement. *)
Definition handle (g : namespace) (e : exn) (st : state) : exn + state :=
  if negb (bound "custom_genai" g) then inl (NameError "custom_genai")
  else
    match e with
    | ResourceExhaustedError _ => inr (set_retry_delay 60 st)
    | InternalServerError _ => inr st
    | InvalidArgumentError msg =>
        if contains (lit "safety") (lower msg)
        then inr (set_safety_retry st)
        else inr (set_failures (failures st + 10) st)
    | OtherException _ => inr st
    | NameError _ => inr st
    | NonException _ => inl e
    end.

Section Retry.
Context {V : Type}.
(** The global namespace the function runs in. *)
Variable g : namespace.
(** [retry_function]: what its n-th invocation (from 0) does, given
    whether it is passed [safety_retry=True]. *)
Variable retry_function : nat -> bool -> outcome V.
Variable max_consecutive_failures : Z.

(** The while loop; [fuel] bounds the number of iterations, and [None]
    is the loop cut short by it. *)
Fixpoint loop (fuel : nat) (st : state) : option (result V * state) :=
  if failures st <? max_consecutive_failures then
    match fuel with
    | O => None
    | S fuel' =>
        let st1 := count_call st in
        match retry_function (calls st) (safety_retry st) with
        | Ret v => Some (Returned (Some v), st1)
        | Raise e =>
            match handle g e st1 with
            | inl e' => Some (Raised e', st1)
            | inr st2 =>
                let st3 := set_failures (failures st2 + 1) st2 in
                if failures st3 >=? max_consecutive_failures
                then Some (Returned None, st3)
                else
                  let st4 := sleep st3 in
                  loop fuel'
                       (set_retry_delay (Z.min (retry_delay st4 * 2) 60) st4)
            end
        end
    end
  else Some (Returned None, st).

Definition initial (delay : Z) : state := mkState 0 delay false 0 [].

(** Every iteration that goes on adds at least one to [failures], so
    [max_consecutive_failures] iterations are enough. *)
Definition retry_api_call (delay : Z) : option (result V * state) :=
  loop (Z.to_nat max_consecutive_failures) (initial delay).

End Retry.

End PromptGenerator.

(* ------------------------------------------------------------------ *)
(** ** ai/story_generator.py *)

Module StoryGenerator.
Import PyStr.

(** config.py *)
Definition MIN_STORY_SEGMENTS : nat := 6.

(** *** The image files of one streamed response *)


(** [str(n)] for a non-negative integer: its decimal digits. *)
Definition decimal (n : nat) : str :=
  list_ascii_of_string (NilZero.string_of_uint (Nat.to_uint n)).

(** [f"{n:02d}"] *)
Definition format_02d (n : nat) : str :=
  let s := decimal n in
  repeat "0"%char (2 - List.length s) ++ s.

Definition sep : ascii := "/"%char.

Definition endswith_sep (p : str) : bool :=
  match rev p with
  | c :: _ => eqb_char c sep
  | [] => false
  end.

(** [os.path.join(a, b)] (posixpath) *)
Definition path_join (a b : str) : str :=
  if startswith [sep] b then b
  else if negb (truthy a) || endswith_sep a then a ++ b
  else a ++ sep :: b.

(** [os.path.join(temp_dir, f"image_{image_count:02d}.png")] *)
Definition image_name (image_count : nat) : str :=
  lit "image_" ++ format_02d image_count ++ lit ".png".

Definition image_path (temp_dir : str) (image_count : nat) : str :=
  path_join temp_dir (image_name image_count).

(** A part of a chunk: without inline data, or with inline data that is
    decoded and written ([true]) or fails on the way ([false]). *)
Inductive part : Type :=
| NoInlineData : part
| InlineData : bool -> part.

Record chunk : Type := mkChunk {
  chunk_text : option str;            (* None: no attribute [text] *)
  chunk_parts : option (list part)    (* None: no attribute [parts] *)
}.

(** The inner loop over the parts of one chunk. *)
Fixpoint save_parts (temp_dir : str) (parts : list part)
         (image_files : list str) (image_count : nat) : list str * nat :=
  match parts with
  | [] => (image_files, image_count)
  | NoInlineData :: rest => save_parts temp_dir rest image_files image_count
  | InlineData ok :: rest =>
      let image_count := S image_count in
      if ok
      then save_parts temp_dir rest
                      (image_files ++ [image_path temp_dir image_count])
                      image_count
      else save_parts temp_dir rest image_files image_count
  end.

(** The loop over the chunks of [attempt_stream_generation]. *)
Fixpoint process_chunks (temp_dir : str) (response : list chunk)
         (raw_text : str) (image_files : list str) (image_count : nat)
  : str * list str * nat :=
  match response with
  | [] => (raw_text, image_files, image_count)
  | c :: rest =>
      let raw_text :=
        match chunk_text c with
        | Some t => if truthy t then raw_text ++ t else raw_text
        | None => raw_text
        end in
      let '(image_files, image_count) :=
        match chunk_parts c with
        | Some parts => save_parts temp_dir parts image_files image_count
        | None => (image_files, image_count)
        end in
      process_chunks temp_dir rest raw_text image_files image_count
  end.

(** [raw_text], [image_files] and the final [image_count]. *)
Definition attempt_stream_generation (temp_dir : str) (response : list chunk)
  : str * list str * nat :=
  process_chunks temp_dir response [] [] 0.

(** *** [sorted] on strings *)

(** [a < b] on strings: by code point, a proper prefix first. *)
Fixpoint str_ltb (a b : str) : bool :=
  match a, b with
  | _, [] => false
  | [], _ :: _ => true
  | x :: a', y :: b' =>
      (code x <? code y) || ((code x =? code y) && str_ltb a' b')
  end.

Section Sorted.
Context {T : Type}.
Variable ltb : T -> T -> bool.

(** [x] goes in before the first element greater than it, so behind the
    elements equal to it: the sort is stable. *)
Fixpoint insert (x : T) (l : list T) : list T :=
  match l with
  | [] => [x]
  | y :: l' => if ltb x y then x :: l else y :: insert x l'
  end.

(** [sorted(l)] *)
Definition sorted (l : list T) : list T :=
  fold_left (fun acc x => insert x acc) l [].

End Sorted.

(** Numbers that go up from above [lo], as the sequence numbers of the
    files of one response do. *)
Fixpoint ascending (lo : nat) (l : list nat) : Prop :=
  match l with
  | [] => True
  | x :: l' => lo < x /\ ascending x l'
  end.

(** The text before the file name in every path of one directory. *)
Definition dir_prefix (temp_dir : str) : str :=
  if negb (truthy temp_dir) || endswith_sep temp_dir then temp_dir
  else temp_dir ++ [sep].

(** *** [retry_story_generation] *)

(** The dictionary [generate] returns, as far as it is looked at: the
    keys 'story_text' and 'image_files', each present or not. *)
Record story_result : Type := mkResult {
  story_text : option str;
  image_files : option (list str)
}.

(** What one run of [generate] does: it returns None or a dictionary, or
    raises an exception. *)
Inductive generation : Type :=
| Generated : option story_result -> generation
| Failed : generation.

(** The test of one attempt: the result is there with both keys and has
    enough segments and images. *)
Definition sufficient (result : option story_result) : bool :=
  match result with
  | Some r =>
      match story_text r, image_files r with
      | Some text, Some images =>
          let story_segments := Utils.story_segments_of text in
          (MIN_STORY_SEGMENTS <=? List.length story_segments)
          && (MIN_STORY_SEGMENTS <=? List.length images)
      | _, _ => false
      end
  | None => false
  end.

(** One attempt counts when [generate] returned and the result passes
    the test; an exception is caught and the attempt does not count. *)
Definition attempt_succeeds (run : generation) : bool :=
  match run with
  | Generated result => sufficient result
  | Failed => false
  end.

Definition max_retries : nat := 5.

Section RetryStory.
(** [generate(use_prompt_generator, prompt_input)]: what its n-th run
    (from 0) does; every run starts from the prompt. *)
Variable generate : nat -> generation.

(** The while loop, by the number of attempts left
    ([max_retries - retry_count]); it gives what the function returns
    and the final [retry_count]. *)
Fixpoint attempts (left retry_count : nat) : option story_result * nat :=
  match left with
  | O => (None, retry_count)
  | S left' =>
      let retry_count := S retry_count in
      match generate (retry_count - 1) with
      | Generated result =>
          if sufficient result then (result, retry_count)
          else attempts left' retry_count
      | Failed => attempts left' retry_count
      end
  end.

Definition retry_story_generation : option story_result * nat :=
  attempts max_retries 0.

End RetryStory.

End StoryGenerator.

(* ------------------------------------------------------------------ *)
(** ** ai/seo.py: [default_seo_metadata] *)

Module Seo.
Import PyStr Re.
Local Open Scope re_scope.

Definition spaces : regex := Plus true space.     (* \s+ *)

(** about\s+(.*?)\s+going\s+on\s+an\s+adventure\s+in\s+(.*?)(?:\s+in\s+a\s+3d|\.) *)
Definition pattern_char_setting : regex :=
  Word "about" +++ spaces +++ Group 1 (Star false dot) +++ spaces
  +++ Word "going" +++ spaces +++ Word "on" +++ spaces +++ Word "an"
  +++ spaces +++ Word "adventure" +++ spaces +++ Word "in" +++ spaces
  +++ Group 2 (Star false dot)
  +++ ((spaces +++ Word "in" +++ spaces +++ Word "a" +++ spaces +++ Word "3d")
       <|> Chr "."%char).

(** [m.group(n)] for a group that took part in the match. *)
Definition group (n : nat) (m : captures) : str :=
  match get_group n m with
  | Some s => s
  | None => []
  end.

Record metadata : Type := mkMetadata {
  title : str;
  description : str;
  tags : list str
}.

(** [s[:n]] *)
Definition prefix (n : nat) (s : str) : str := firstn n s.

Definition indent : str := lit "    ".

(** [timestamp] is the date [datetime.datetime.now()] is formatted to. *)
Definition default_seo_metadata (timestamp story_text prompt_text : str)
  : metadata :=
  let char_setting := search pattern_char_setting prompt_text in
  let '(character, setting) :=
    match char_setting with
    | Some m => (group 1 m, group 2 m)
    | None => (lit "an animal", lit "an adventure")
    end in
  let title :=
    lit "Adventure of " ++ character ++ lit " in " ++ setting
    ++ lit " | Children's Story" in
  let title := prefix 60 title in
  let story_preview :=
    if 500 <? List.length story_text
    then prefix 500 story_text ++ lit "..."
    else story_text in
  let description :=
    [nl] ++ indent ++ lit "Join " ++ character
    ++ lit " on an exciting adventure in " ++ setting ++ lit "!" ++ [nl]
    ++ indent ++ [nl]
    ++ indent ++ story_preview ++ [nl]
    ++ indent ++ [nl]
    ++ indent ++ lit "This animated children's story is perfect for bedtime reading, family story time, or whenever your child wants to explore magical worlds and learn valuable lessons. Watch as our character overcomes challenges and discovers new friends along the way." ++ [nl]
    ++ indent ++ [nl]
    ++ indent ++ lit "#ChildrensStory #Animation #KidsEntertainment" ++ [nl]
    ++ indent ++ [nl]
    ++ indent ++ lit "Created: " ++ timestamp ++ [nl]
    ++ indent in
  let tags :=
    [lit "children's story";
     lit "kids animation";
     lit "bedtime story";
     lit "animated story";
     character;
     setting;
     lit "family friendly";
     lit "kids entertainment";
     lit "story time";
     lit "animated adventure";
     lit "educational content";
     lit "preschool";
     lit "moral story";
     lit "3D animation";
     lit "storybook"] in
  mkMetadata title description tags.

End Seo.

(* ------------------------------------------------------------------ *)
(** ** media/video.py: the timing of [create_video_from_images_and_audio] *)

Module Video.








(** The rational number a finite float stands for. *)
Definition exact (f : float) : option Q :=
  match Prim2SF f with
  | S754_zero _ => Some 0%Q
  | S754_finite s m e =>
      Some ((if s then -1 else 1) * inject_Z (Zpos m) * Qpower 2 e)%Q
  | _ => None
  end.


End Video.

(* ------------------------------------------------------------------ *)
(** ** Concrete inputs used below *)

Module Inputs.
Import PyStr.

(** A numbered story of three short sentences. *)
Definition short_numbered_story : str :=
  lit "1. Pip woke up." ++ [nl] ++ lit "2. Pip ate grass." ++ [nl]
  ++ lit "3. Pip slept.".

(** A numbered story of three longer sentences. *)
Definition numbered_story : str :=
  lit "1. Pip the goat woke up early today." ++ [nl]
  ++ lit "2. Pip ran across the green farm quickly." ++ [nl]
  ++ lit "3. Pip slept under the old oak tree.".

(** Two paragraphs, the first of two words. *)
Definition two_paragraphs : str :=
  lit "The End." ++ [nl; nl] ++ lit "Pip the goat went home to sleep.".

(** A paragraph in which a bracket note stands between backticks. *)
Definition fenced_note : str := lit "Pip said hello to the hens `[aside]``".

(** Ten image files, as [generate] names them. *)
Definition ten_images : list str :=
  map (StoryGenerator.image_path (lit "/tmp/tmpab12")) (seq 1 10).

(** A prompt of the shape of DEFAULT_PROMPT. *)
Definition goat_prompt : str :=
  lit "Generate a story about a white baby goat named Pip going on an adventure in a farm in a highly detailed 3d cartoon animation style.".

(** A [retry_function] that raises the same exception at every call. *)
Definition always_raises (e : PromptGenerator.exn)
  : nat -> bool -> PromptGenerator.outcome unit :=
  fun _ _ => PromptGenerator.Raise e.

(** [Exception("boom")] and an invalid-argument error that is not about
    safety. *)
Definition boom : PromptGenerator.exn :=
  PromptGenerator.OtherException (lit "boom").
Definition bad_request : PromptGenerator.exn :=
  PromptGenerator.InvalidArgumentError (lit "bad request format").

(** The module's namespace had it imported [custom_genai]. *)
Definition globals_with_custom_genai : PromptGenerator.namespace :=
  "custom_genai"%string :: PromptGenerator.module_globals.

End Inputs.

(* ------------------------------------------------------------------ *)
(** ** The schedule of delays of [retry_api_call] *)

Module Backoff.
Import PromptGenerator.
Local Open Scope Z_scope.

(** [retry_delay = min(retry_delay * 2, 60)] *)
Definition next_delay (d : Z) : Z := Z.min (d * 2) 60.





(** The sleeps of a run, latest first: none, or all of at most 60 but
    the first one slept, which is the delay given or 60. *)
Definition sleeps_capped (delay : Z) (l : list Z) : Prop :=
  l = [] \/
  exists later first,
    l = later ++ [first] /\ (first = delay \/ first = 60) /\
    Forall (fun d => d <= 60) later.

(** The state at the head of the loop. *)
Definition at_head (delay : Z) (st : state) : Prop :=
  Z.of_nat (calls st) <= failures st /\
  List.length (sleeps st) = calls st /\
  sleeps_capped delay (sleeps st) /\
  (calls st = 0%nat -> retry_delay st = delay) /\
  (calls st <> 0%nat -> retry_delay st <= 60).

End Backoff.

(* ------------------------------------------------------------------ *)
(** ** What a pattern matches *)

Module ReSpec.
Import PyStr Re.

(** The texts a pattern can match, whatever the order of the search. *)
Inductive matches : regex -> str -> Prop :=
| matches_eps : matches Eps []
| matches_chr : forall c, matches (Chr c) [c]
| matches_cls : forall p d, p d = true -> matches (Cls p) [d]
| matches_bos : matches Bos []
| matches_seq : forall r1 r2 t1 t2,
    matches r1 t1 -> matches r2 t2 -> matches (Seq r1 r2) (t1 ++ t2)
| matches_alt_l : forall r1 r2 t, matches r1 t -> matches (Alt r1 r2) t
| matches_alt_r : forall r1 r2 t, matches r2 t -> matches (Alt r1 r2) t
| matches_star : forall b p t,
    Forall (fun c => p c = true) t -> matches (Star b p) t
| matches_group : forall n r t, matches r t -> matches (Group n r) t.

(** The capturing groups of a pattern, with their numbers. *)
Fixpoint groups (r : regex) : list (nat * regex) :=
  match r with
  | Seq r1 r2 | Alt r1 r2 => groups r1 ++ groups r2
  | Group n r1 => (n, r1) :: groups r1
  | _ => []
  end.

End ReSpec.

(* ------------------------------------------------------------------ *)
(** ** ai/prompt_generator.py: the text handling of [generate_prompt] *)

Module PromptText.
Import PyStr Re.
Local Open Scope re_scope.

(** [s.find(sub)]: the first index at which [sub] starts, None for -1. *)
Fixpoint find_from (sub s : str) (i : nat) : option nat :=
  if startswith sub s then Some i
  else match s with
       | [] => None
       | _ :: s' => find_from sub s' (S i)
       end.

Definition find (sub s : str) : option nat := find_from sub s 0.

Definition story_opening : str := lit "Generate a story about".
Definition style_words : str :=
  lit "highly detailed 3d cartoon animation style".
Definition aspect_words : str := lit "16:9".
Definition aspect_sentence : str :=
  lit " Generate images in 16:9 aspect ratio suitable for a widescreen YouTube video.".

(** Generate a story about (.*?) going on an adventure in (.*?) in a highly detailed 3d cartoon animation style *)
Definition pattern_prompt : regex :=
  Word "Generate a story about " +++ Group 1 (Star false dot)
  +++ Word " going on an adventure in " +++ Group 2 (Star false dot)
  +++ Word " in a highly detailed 3d cartoon animation style".

(** [if "16:9" not in clean_prompt: clean_prompt += ...] *)
Definition with_aspect (clean_prompt : str) : str :=
  if negb (contains aspect_words clean_prompt)
  then clean_prompt ++ aspect_sentence
  else clean_prompt.

(** The branch taken when the pattern is found and [find] gives an index:
    the prompt from the first opening on. *)
Definition from_opening (generated_prompt : str) : option str :=
  match search pattern_prompt generated_prompt with
  | Some _ =>
      match find story_opening generated_prompt with
      | Some start_idx => Some (with_aspect (skipn start_idx generated_prompt))
      | None => None
      end
  | None => None
  end.

(** The other branch: the fences are removed and the parts that are not
    there are added. *)
Definition repaired (generated_prompt : str) : str :=
  let clean_prompt := strip (replace (lit "```") [] generated_prompt) in
  let clean_prompt :=
    if negb (contains story_opening clean_prompt)
    then lit "Generate a story about " ++ clean_prompt
    else clean_prompt in
  let clean_prompt :=
    if negb (contains style_words clean_prompt)
    then clean_prompt ++ lit " in a highly detailed 3d cartoon animation style"
    else clean_prompt in
  with_aspect clean_prompt.

(** What is made of the text the model generated. *)
Definition clean_up (generated_prompt : str) : str :=
  match from_opening generated_prompt with
  | Some clean_prompt => clean_prompt
  | None => repaired generated_prompt
  end.

(** What the model call gives: the texts of the chunks of a stream
    ([chunk.text], None or a text), the text of a whole response
    ([response.text]), or an exception. *)
Inductive reply : Type :=
| Stream : list (option str) -> reply
| Whole : option str -> reply
| CallFailed : reply.

(** The loop over the chunks: [if chunk.text: generated_prompt +=
    chunk.text]. *)
Fixpoint gather (chunks : list (option str)) (generated_prompt : str) : str :=
  match chunks with
  | [] => generated_prompt
  | Some t :: rest =>
      gather rest (if truthy t then generated_prompt ++ t else generated_prompt)
  | None :: rest => gather rest generated_prompt
  end.

(** The try block of [generate_prompt]: every exception gives None, and
    so does a whole response without text, on which [re.search] raises. *)
Definition generate_prompt (r : reply) : option str :=
  match r with
  | Stream chunks => Some (clean_up (gather chunks []))
  | Whole (Some t) => Some (clean_up t)
  | Whole None => None
  | CallFailed => None
  end.

End PromptText.

(* ------------------------------------------------------------------ *)
(** ** ai/story_generator.py: [generate], from the content to the result *)

Module StoryFlow.
Import PyStr StoryGenerator.

(** The parts of all the chunks of a response, in order. *)
Definition all_parts (response : list chunk) : list part :=
  flat_map (fun c => match chunk_parts c with
                     | Some parts => parts
                     | None => []
                     end) response.

Definition has_inline_data (p : part) : bool :=
  match p with
  | InlineData _ => true
  | NoInlineData => false
  end.

Definition is_saved (p : part) : bool :=
  match p with
  | InlineData ok => ok
  | NoInlineData => false
  end.

(** The texts of the chunks of a response, in order. *)
Definition all_text (response : list chunk) : str :=
  List.concat (map (fun c => match chunk_text c with
                             | Some t => t
                             | None => []
                             end) response).

(** [attempt_non_stream_generation]: the text of the response and the
    images of its parts. *)
Definition attempt_non_stream_generation (temp_dir : str) (text : str)
           (parts : option (list part)) : str * list str :=
  match parts with
  | Some ps => (text, fst (save_parts temp_dir ps [] 0))
  | None => (text, [])
  end.

(** The number written into a name can be read back, leading zeros or
    not. *)
Definition read_number (digits : str) : option nat :=
  option_map Nat.of_uint
             (NilEmpty.uint_of_string (string_of_list_ascii digits)).

(** What [raw_text, image_files = retry_api_call(...)] gives: the two
    values, or the exception that leaves the statement.  None cannot be
    unpacked: TypeError. *)
Definition type_error : PromptGenerator.exn :=
  PromptGenerator.OtherException
    (lit "cannot unpack non-iterable NoneType object").

Definition unpack (r : PromptGenerator.result (str * list str))
  : PromptGenerator.exn + (str * list str) :=
  match r with
  | PromptGenerator.Returned (Some content) => inr content
  | PromptGenerator.Returned None => inl type_error
  | PromptGenerator.Raised e => inl e
  end.

(** [except Exception] catches all but the exceptions that are not
    subclasses of Exception. *)
Definition caught (e : PromptGenerator.exn) : bool :=
  match e with
  | PromptGenerator.NonException _ => false
  | _ => true
  end.

(** [not raw_text or not image_files] *)
Definition lacking (content : str * list str) : bool :=
  negb (truthy (fst content))
  || match snd content with [] => true | _ => false end.

Section Fetch.
(** [retry_api_call(attempt_stream_generation)] and the n-th evaluation
    (from 0) of [retry_api_call(attempt_non_stream_generation)]. *)
Variable stream_call : PromptGenerator.result (str * list str).
Variable non_stream_call : nat -> PromptGenerator.result (str * list str).

(** The except block: the non-streaming generation, its [n]-th call. *)
Definition fall_back (n : nat)
  : (PromptGenerator.exn + (str * list str)) * nat :=
  (unpack (non_stream_call n), S n).

(** The try statement of [generate]: the content, or the exception that
    leaves [generate], and the number of non-streaming calls made. *)
Definition fetch_content : (PromptGenerator.exn + (str * list str)) * nat :=
  match unpack stream_call with
  | inr content =>
      if lacking content
      then match unpack (non_stream_call 0) with
           | inr content' => (inr content', 1)
           | inl e => if caught e then fall_back 1 else (inl e, 1)
           end
      else (inr content, 0)
  | inl e => if caught e then fall_back 0 else (inl e, 0)
  end.

End Fetch.

(** The dictionary [generate] returns: the keys of every result, and
    those of the later stages. *)
Record result_dict : Type := mkDict {
  d_story_text : str;
  d_image_files : list str;
  d_prompt_text : str;
  d_temp_dir : str;
  d_audio_file : option str;
  d_video_file : option str;
  d_published : bool      (* thumbnail, metadata and upload_result are there *)
}.

Inductive outcome : Type :=
| Raises : PromptGenerator.exn -> outcome
| ReturnsNone : outcome
| Returns : result_dict -> outcome.

(** What the surroundings of one run of [generate] give. *)
Record world : Type := mkWorld {
  temp_dir : str;                                   (* tempfile.mkdtemp() *)
  prompt_call : PromptGenerator.result str;
      (* retry_api_call(generate_prompt, prompt_input) *)
  client_error : option PromptGenerator.exn;
      (* genai.GenerativeModel(...) raises *)
  stream_call : PromptGenerator.result (str * list str);
  non_stream_call : nat -> PromptGenerator.result (str * list str);
  story_file_written : bool;                        (* open and write *)
  audio_file : option str;             (* generate_audio_from_text(...) *)
  audio_exists : bool;                 (* os.path.exists(audio_file) *)
  video_file : option str;    (* create_video_from_images_and_audio(...) *)
  video_exists : bool
}.

Definition os_error : PromptGenerator.exn :=
  PromptGenerator.OtherException (lit "OSError").

(** The prompt that is used: the generated one, or the input when none
    was generated. *)
Definition choose_prompt (use_prompt_generator : bool) (prompt_input : str)
           (w : world) : PromptGenerator.exn + str :=
  if use_prompt_generator then
    match prompt_call w with
    | PromptGenerator.Raised e => inl e
    | PromptGenerator.Returned (Some prompt) =>
        if truthy prompt then inr prompt else inr prompt_input
    | PromptGenerator.Returned None => inr prompt_input
    end
  else inr prompt_input.

(** [os.path.exists(path)] of an optional path that is there and not
    empty. *)
Definition usable (path : option str) (exists_ : bool) : option str :=
  match path with
  | Some p => if truthy p && exists_ then Some p else None
  | None => None
  end.

(** [collect_complete_story(raw_text)], which returns a text. *)
Definition complete_story (raw_text : str) : str :=
  match Utils.collect_complete_story raw_text false with
  | Utils.Text story_text => story_text
  | Utils.Segments _ => []
  end.

(** From the content on: the checks, the sorted images, the story text
    and the stages that follow. *)
Definition build_result (prompt : str) (content : str * list str) (w : world)
  : outcome :=
  let '(raw_text, image_files) := content in
  if lacking (raw_text, image_files) then ReturnsNone
  else
    let image_files := sorted str_ltb image_files in
    let story_text := complete_story raw_text in
    if negb (truthy story_text) then ReturnsNone
    else if negb (story_file_written w) then Raises os_error
    else
      let d := mkDict story_text image_files prompt (temp_dir w) in
      match usable (audio_file w) (audio_exists w) with
      | None => Returns (d None None false)
      | Some audio =>
          match usable (video_file w) (video_exists w) with
          | None => Returns (d (Some audio) None false)
          | Some video => Returns (d (Some audio) (Some video) true)
          end
      end.

Definition generate (use_prompt_generator : bool) (prompt_input : str)
           (w : world) : outcome :=
  match choose_prompt use_prompt_generator prompt_input w with
  | inl e => Raises e
  | inr prompt =>
      match client_error w with
      | Some e => Raises e
      | None =>
          match fst (fetch_content (stream_call w) (non_stream_call w)) with
          | inl e => Raises e
          | inr content => build_result prompt content w
          end
      end
  end.

(** The result as [retry_story_generation] looks at it. *)
Definition as_generation (o : outcome) : generation :=
  match o with
  | Raises _ => Failed
  | ReturnsNone => Generated None
  | Returns d =>
      Generated (Some (mkResult (Some (d_story_text d))
                                (Some (d_image_files d))))
  end.

End StoryFlow.

(* ------------------------------------------------------------------ *)
(** ** More concrete inputs *)

Module MoreInputs.
Import PyStr.

(** An operation that raises [e] at its first [k] calls and returns [v]
    from then on. *)
Definition fails_then_returns (k : nat) (e : PromptGenerator.exn) (v : nat)
  : nat -> bool -> PromptGenerator.outcome nat :=
  fun n _ => if n <? k then PromptGenerator.Raise e else PromptGenerator.Ret v.

Definition server_error : PromptGenerator.exn :=
  PromptGenerator.InternalServerError (lit "503").


(** A generated prompt that is complete. *)
Definition complete_prompt : str :=
  Inputs.goat_prompt
  ++ lit " Generate images in 16:9 aspect ratio suitable for a widescreen YouTube video.".

(** A story of six paragraphs. *)
Definition six_paragraphs : str :=
  lit "Pip the little goat woke up early." ++ [nl; nl]
  ++ lit "He ran across the green farm quickly." ++ [nl; nl]
  ++ lit "A friendly hen showed him the barn." ++ [nl; nl]
  ++ lit "Together they found a shiny red apple." ++ [nl; nl]
  ++ lit "Pip shared the apple with his friends." ++ [nl; nl]
  ++ lit "Then everyone slept under the old oak.".

(** A run of [generate] in which every stage succeeds. *)
Definition good_world : StoryFlow.world :=
  StoryFlow.mkWorld
    (lit "/tmp/tmpab12")
    (PromptGenerator.Returned (Some complete_prompt))
    None
    (PromptGenerator.Returned (Some (six_paragraphs, Inputs.ten_images)))
    (fun _ => PromptGenerator.Returned None)
    true
    (Some (lit "/tmp/tmpab12/story_audio.wav")) true
    (Some (lit "/tmp/tmpab12/story_video.mp4")) true.

(** A run in which [retry_api_call] gives up every time. *)
Definition hopeless_world : StoryFlow.world :=
  StoryFlow.mkWorld
    (lit "/tmp/tmpab12")
    (PromptGenerator.Returned None)
    None
    (PromptGenerator.Returned None)
    (fun _ => PromptGenerator.Returned None)
    true None false None false.

(** A streamed response: two chunks of text, three images of which the
    second cannot be saved. *)
Definition small_response : list StoryGenerator.chunk :=
  [StoryGenerator.mkChunk (Some (lit "Once upon a time "))
                          (Some [StoryGenerator.InlineData true]);
   StoryGenerator.mkChunk None
                          (Some [StoryGenerator.NoInlineData;
                                 StoryGenerator.InlineData false]);
   StoryGenerator.mkChunk (Some (lit "there was a goat."))
                          (Some [StoryGenerator.InlineData true])].

End MoreInputs.

(* ------------------------------------------------------------------ *)
(** ** seo.py: the reply handed to the JSON parser *)

Module SeoReply.
Import PyStr.

Definition fence : str := lit "```".
Definition json_fence : str := lit "```json".

(** [story_text[:500] + "..." if len(story_text) > 500 else story_text] *)
Definition story_preview (story_text : str) : str :=
  if 500 <? List.length story_text
  then firstn 500 story_text ++ lit "..."
  else story_text.

(** The text [json.loads] is called with: the reply stripped, and
    without its markdown fences when it starts with one. *)
Definition json_text (response_text : str) : str :=
  let json_str := strip response_text in
  if startswith json_fence json_str
  then strip (replace fence [] (replace json_fence [] json_str))
  else if startswith fence json_str
  then strip (replace fence [] json_str)
  else json_str.

End SeoReply.

(* ------------------------------------------------------------------ *)
(** ** audio.py: generate_audio_from_text *)

Module Audio.
Import PyStr StoryGenerator.

(** config.py *)
Definition SAMPLE_RATE : Z := 24000.

(** A one-dimensional array of samples. *)
Definition audio := list float.

(** [int(x)] for a float: the integer part, and nothing for an infinity
    or a NaN (Python raises). *)
Definition int_of_float (x : float) : option Z :=
  match Video.exact x with
  | Some q => Some (Z.quot (Qnum q) (Zpos (Qden q)))
  | None => None
  end.

(** [int(0.5 * SAMPLE_RATE)] *)
Definition silence_samples : nat :=
  match int_of_float (PrimFloat.mul 0.5%float
                                    (PrimFloat.of_uint63 (Uint63.of_Z SAMPLE_RATE)))
  with
  | Some n => Z.to_nat n
  | None => 0
  end.

(** [np.zeros(int(0.5 * SAMPLE_RATE))] *)
Definition silence : audio := repeat 0%float silence_samples.

(** [f"{n:03d}"] *)
Definition format_03d (n : nat) : str :=
  let s := decimal n in
  repeat "0"%char (3 - List.length s) ++ s.

(** [f"segment_{i+1:03d}.wav"] *)
Definition segment_name (i : nat) : str :=
  lit "segment_" ++ format_03d (i + 1) ++ lit ".wav".

(** What the function meets outside: the speech pipeline, the directory
    and the sound files.  [None] and [false] stand for a raised
    exception. *)
Record world : Type := mkWorld {
  (* KPipeline(lang_code='a'); the pipeline gives the chunks of one
     paragraph *)
  pipeline : option (str -> option (list audio));
  makedirs : bool;                      (* os.makedirs(audio_dir, ...) *)
  write : str -> audio -> bool;         (* sf.write(path, data, ...) *)
  read : str -> option audio            (* sf.read(path) *)
}.

(** The loop over the paragraphs: [audio_segments], the paths of the
    segments written. *)
Fixpoint process_paragraphs (speak : str -> option (list audio))
         (write : str -> audio -> bool) (audio_dir : str)
         (i : nat) (paragraphs : list str) : list str :=
  match paragraphs with
  | [] => []
  | paragraph :: rest =>
      match speak paragraph with
      | Some paragraph_audio =>
          let audio_data :=
            match paragraph_audio with
            | [] => []
            | _ => List.concat paragraph_audio
            end in
          let segment_path := path_join audio_dir (segment_name i) in
          if write segment_path audio_data
          then segment_path :: process_paragraphs speak write audio_dir (S i) rest
          else process_paragraphs speak write audio_dir (S i) rest
      | None => process_paragraphs speak write audio_dir (S i) rest
      end
  end.

(** The loop that reads the segments back: [all_audio_data]. *)
Fixpoint read_segments (read : str -> option audio)
         (audio_segments : list str) : list audio :=
  match audio_segments with
  | [] => []
  | segment_path :: rest =>
      match read segment_path with
      | Some data => data :: read_segments read rest
      | None => read_segments read rest
      end
  end.

(** The loop [for i, data in enumerate(all_audio_data)] that fills
    [combined_data]; [total] is [len(all_audio_data)]. *)
Fixpoint with_silence (total i : nat) (all_audio_data : list audio)
  : list audio :=
  match all_audio_data with
  | [] => []
  | data :: rest =>
      if Z.of_nat i <? Z.of_nat total - 1
      then data :: silence :: with_silence total (S i) rest
      else data :: with_silence total (S i) rest
  end%Z.

(** [np.concatenate(combined_data)] *)
Definition combined_data (all_audio_data : list audio) : audio :=
  List.concat (with_silence (List.length all_audio_data) 0 all_audio_data).

(** The function: the path it returns with the samples written there,
    or None. *)
Definition generate_audio_from_text (w : world) (story_text output_dir : str)
  : option (str * audio) :=
  match pipeline w with
  | None => None
  | Some speak =>
      let audio_dir := path_join output_dir (lit "audio") in
      if negb (makedirs w) then None
      else
        let paragraphs := Utils.paragraphs story_text in
        let audio_segments :=
          process_paragraphs speak (write w) audio_dir 0 paragraphs in
        match audio_segments with
        | [] => None
        | _ =>
            let combined_audio_path :=
              path_join output_dir (lit "story_audio.wav") in
            let all_audio_data := read_segments (read w) audio_segments in
            match all_audio_data with
            | [] => None
            | _ =>
                let combined := combined_data all_audio_data in
                if write w combined_audio_path combined
                then Some (combined_audio_path, combined)
                else None
            end
        end
  end.

End Audio.

(* ------------------------------------------------------------------ *)
(** ** video.py: the resized images and the thumbnail *)

Module VideoFiles.
Import PyStr StoryGenerator.

(** [f"resized_{i+1:03d}.jpg"] *)
Definition resized_name (i : nat) : str :=
  lit "resized_" ++ Audio.format_03d (i + 1) ++ lit ".jpg".

(** The loop [for i, img_path in enumerate(image_files)]: the resized
    copy, or the original image when opening, resizing or saving it
    raises ([resize img_path = false]). *)
Fixpoint resized_from (resize : str -> bool) (resize_dir : str) (i : nat)
         (image_files : list str) : list str :=
  match image_files with
  | [] => []
  | img_path :: rest =>
      (if resize img_path
       then path_join resize_dir (resized_name i)
       else img_path)
      :: resized_from resize resize_dir (S i) rest
  end.

Definition resized_images (resize : str -> bool) (output_dir : str)
           (image_files : list str) : list str :=
  resized_from resize (path_join output_dir (lit "resized_images")) 0
               image_files.






End VideoFiles.

(* ------------------------------------------------------------------ *)
(** ** Inputs for the media functions *)

Module MediaInputs.
Import PyStr.

(** A reply in a fence with a language tag, with backticks that the
    first replacement joins: the six characters before [json] and the
    one after it. *)
Definition fenced_reply : str :=
  lit "```json" ++ [nl] ++ lit "{}" ++ [nl] ++ lit "`````json`".

(** A world in which every step of the audio generation succeeds:
    every paragraph is spoken as two chunks of two samples, and a file
    read back has three samples. *)
Definition quiet_world : Audio.world :=
  Audio.mkWorld
    (Some (fun _ => Some [[1%float; 2%float]; [3%float; 4%float]]))
    true
    (fun _ _ => true)
    (fun _ => Some [1%float; 2%float; 3%float]).

End MediaInputs.

(* ------------------------------------------------------------------ *)
(** * Properties of the text segmentation *)

Section UtilsFacts.
Import PyStr Re Utils.

Lemma final_cleanup_nonempty (segments : list str) :
  Forall (fun s => s <> []) (final_cleanup segments).
Proof.
  induction segments as [|seg rest IH]; simpl.
  - constructor.
  - destruct (not_story seg); [exact IH|].
    destruct (clean seg) as [|c cs] eqn:E; simpl; [exact IH|].
    constructor; [discriminate | exact IH].
Qed.

Lemma final_cleanup_filter (segments : list str) :
  final_cleanup segments = map clean (filter kept segments).
Proof.
  induction segments as [|seg rest IH]; simpl; [reflexivity|].
  unfold kept at 1.
  destruct (not_story seg); simpl; [exact IH|].
  destruct (truthy (clean seg)); simpl; [f_equal|]; exact IH.
Qed.

Lemma final_cleanup_length (segments : list str) :
  List.length (final_cleanup segments) <= List.length segments.
Proof.
  rewrite final_cleanup_filter, length_map. apply filter_length_le.
Qed.

(** The loop over the patterns stops at the first pattern that gives three
    pieces. *)
Lemma try_patterns_first (patterns : list regex) (text : str) :
  (exists p, In p patterns /\ 3 <= List.length (potential_segments p text)) ->
  exists before p after,
    patterns = before ++ p :: after /\
    (forall q, In q before -> List.length (potential_segments q text) < 3) /\
    3 <= List.length (potential_segments p text) /\
    try_patterns patterns text = potential_segments p text.
Proof.
  induction patterns as [|q rest IH]; intros [p [Hin Hlen]].
  - destruct Hin.
  - cbn [try_patterns].
    destruct (3 <=? List.length (potential_segments q text)) eqn:E.
    + apply Nat.leb_le in E.
      exists [], q, rest.
      split; [reflexivity|]. split; [intros ? []|]. split; [exact E|reflexivity].
    + apply Nat.leb_gt in E.
      destruct Hin as [-> | Hin]; [lia|].
      destruct IH as (before & p' & after & -> & Hb & Hp & Ht);
        [exists p; auto|].
      exists (q :: before), p', after.
      split; [reflexivity|]. split; [|split; assumption].
      intros q' [<- | Hq]; [exact E | apply Hb; exact Hq].
Qed.

Lemma try_patterns_none (patterns : list regex) (text : str) :
  (forall p, In p patterns -> List.length (potential_segments p text) < 3) ->
  try_patterns patterns text = [].
Proof.
  induction patterns as [|q rest IH]; intros H; cbn [try_patterns];
    [reflexivity|].
  destruct (3 <=? List.length (potential_segments q text)) eqn:E.
  - apply Nat.leb_le in E. specialize (H q (or_introl eq_refl)). lia.
  - apply IH. intros p Hp. apply H. right. exact Hp.
Qed.

(** With [return_segments=True] the function returns the list the final
    loop built, whatever its length: the too-short test comes after. *)
Lemma segment_mode_returns_list (raw_text : str) :
  collect_complete_story raw_text true = Segments (story_segments_of raw_text).
Proof. reflexivity. Qed.

Lemma story_segments_nonempty (raw_text : str) :
  Forall (fun s => s <> []) (story_segments_of raw_text).
Proof.
  unfold story_segments_of, collect_complete_story.
  apply final_cleanup_nonempty.
Qed.

(** C1 (as amended).  When one of the three segment patterns splits the
    stripped text into at least three non-empty pieces,
    [collect_complete_story(raw_text, return_segments=True)] goes by the
    first such pattern and returns the cleaned forms of those of its pieces
    that the final loop keeps (five words or more, none of the non-story
    markers, not empty once the bracket notes are removed).  Every segment
    returned is non-empty, and there are as many as kept pieces: never more
    than the pieces, and possibly fewer than three. *)
Theorem segments_are_the_kept_pieces (raw_text : str) :
  let text := strip raw_text in
  (exists p, In p segment_patterns /\
             3 <= List.length (potential_segments p text)) ->
  exists before p after,
    segment_patterns = before ++ p :: after /\
    (forall q, In q before -> List.length (potential_segments q text) < 3) /\
    3 <= List.length (potential_segments p text) /\
    story_segments_of raw_text
    = map clean (filter kept (potential_segments p text)) /\
    Forall (fun s => s <> []) (story_segments_of raw_text) /\
    List.length (story_segments_of raw_text)
    <= List.length (potential_segments p text).
Proof.
  intros text H.
  destruct (try_patterns_first segment_patterns text H)
    as (before & p & after & Hsplit & Hbefore & Hlen & Htry).
  exists before, p, after.
  assert (Hres : story_segments_of raw_text
                 = final_cleanup (potential_segments p text)).
  { unfold story_segments_of, collect_complete_story. fold text.
    rewrite Htry.
    destruct (potential_segments p text); [simpl in Hlen; lia | reflexivity]. }
  repeat (split; [assumption|]).
  split; [rewrite Hres; apply final_cleanup_filter|].
  split; [apply story_segments_nonempty|].
  rewrite Hres. apply final_cleanup_length.
Qed.

Lemma segments_are_the_kept_pieces_witness :
  (exists p, In p segment_patterns /\
             3 <= List.length
                    (potential_segments p (strip Inputs.numbered_story))) /\
  exists before p after,
    segment_patterns = before ++ p :: after /\
    (forall q, In q before ->
               List.length
                 (potential_segments q (strip Inputs.numbered_story)) < 3) /\
    3 <= List.length (potential_segments p (strip Inputs.numbered_story)) /\
    story_segments_of Inputs.numbered_story
    = map clean
          (filter kept (potential_segments p (strip Inputs.numbered_story))) /\
    Forall (fun s => s <> []) (story_segments_of Inputs.numbered_story) /\
    List.length (story_segments_of Inputs.numbered_story)
    <= List.length (potential_segments p (strip Inputs.numbered_story)).
Proof.
  assert (H : exists p, In p segment_patterns /\
                3 <= List.length
                       (potential_segments p (strip Inputs.numbered_story))).
  { exists pattern_number. split; [simpl; auto|]. vm_compute. lia. }
  split; [exact H|].
  exact (segments_are_the_kept_pieces Inputs.numbered_story H).
Defined.

(** C1 (as stated) fails: the number pattern splits the short numbered
    story into three non-empty pieces, each of three words, and the final
    loop drops all three. *)
Lemma short_numbered_story_loses_its_segments :
  (exists p, In p segment_patterns /\
             3 <= List.length
                    (potential_segments p (strip Inputs.short_numbered_story)))
  /\ story_segments_of Inputs.short_numbered_story = []
  /\ ~ 3 <= List.length (story_segments_of Inputs.short_numbered_story).
Proof.
  split; [|split].
  - exists pattern_number. split; [simpl; auto|]. vm_compute. lia.
  - vm_compute. reflexivity.
  - vm_compute. lia.
Qed.

(** C3 (as amended).  When none of the three segment patterns gives three
    non-empty pieces, [collect_complete_story(raw_text,
    return_segments=True)] splits the stripped text on blank lines and
    returns the cleaned forms of the paragraphs the final loop keeps:
    every segment returned is non-empty and the list is at most as long as
    the list of non-empty paragraphs. *)
Theorem paragraphs_are_filtered (raw_text : str) :
  let text := strip raw_text in
  (forall p, In p segment_patterns ->
             List.length (potential_segments p text) < 3) ->
  story_segments_of raw_text = map clean (filter kept (paragraphs text)) /\
  Forall (fun s => s <> []) (story_segments_of raw_text) /\
  List.length (story_segments_of raw_text) <= List.length (paragraphs text).
Proof.
  intros text H.
  assert (Hres : story_segments_of raw_text = final_cleanup (paragraphs text)).
  { unfold story_segments_of, collect_complete_story. fold text.
    rewrite (try_patterns_none segment_patterns text H). reflexivity. }
  split; [rewrite Hres; apply final_cleanup_filter|].
  split; [apply story_segments_nonempty|].
  rewrite Hres. apply final_cleanup_length.
Qed.

Lemma no_pattern_in_two_paragraphs (p : regex) :
  In p segment_patterns ->
  List.length (potential_segments p (strip Inputs.two_paragraphs)) < 3.
Proof.
  intros [<- | [<- | [<- | []]]]; vm_compute; lia.
Qed.

Lemma paragraphs_are_filtered_witness :
  story_segments_of Inputs.two_paragraphs
  = map clean (filter kept (paragraphs (strip Inputs.two_paragraphs))) /\
  Forall (fun s => s <> []) (story_segments_of Inputs.two_paragraphs) /\
  List.length (story_segments_of Inputs.two_paragraphs)
  <= List.length (paragraphs (strip Inputs.two_paragraphs)).
Proof.
  apply (paragraphs_are_filtered Inputs.two_paragraphs).
  intros p [<- | [<- | [<- | []]]]; vm_compute; lia.
Defined.

(** C3 (as stated) fails: no pattern gives three pieces of the two
    paragraphs, and of the two only the second, of seven words, is
    returned. *)
Lemma two_paragraphs_give_one_segment :
  (forall p, In p segment_patterns ->
             List.length (potential_segments p (strip Inputs.two_paragraphs))
             < 3)
  /\ List.length (paragraphs (strip Inputs.two_paragraphs)) = 2
  /\ List.length (story_segments_of Inputs.two_paragraphs) = 1
  /\ ~ List.length (paragraphs (strip Inputs.two_paragraphs))
       <= List.length (story_segments_of Inputs.two_paragraphs).
Proof.
  split; [exact no_pattern_in_two_paragraphs|].
  split; [vm_compute; reflexivity|].
  split; [vm_compute; reflexivity|].
  vm_compute. lia.
Qed.

(** C9 at the failing input.  The paragraph has seven words and no run of
    three backticks, so the final loop keeps it; removing the bracket note
    then brings one backtick and two together, and the segment returned
    contains three backticks in a row. *)
Theorem fenced_note_returns_backticks :
  contains backticks Inputs.fenced_note = false /\
  story_segments_of Inputs.fenced_note
  = [lit "Pip said hello to the hens ```"] /\
  Exists (fun s => contains backticks s = true)
         (story_segments_of Inputs.fenced_note).
Proof.
  split; [vm_compute; reflexivity|].
  split; [vm_compute; reflexivity|].
  apply Exists_cons_hd. vm_compute. reflexivity.
Qed.

(** In segment mode a non-empty input can give the empty list. *)
Lemma segment_mode_can_return_nothing :
  Inputs.short_numbered_story <> [] /\
  collect_complete_story Inputs.short_numbered_story true = Segments [].
Proof.
  split; [discriminate|]. vm_compute. reflexivity.
Qed.

End UtilsFacts.

(* ------------------------------------------------------------------ *)
(** * Properties of the retry wrapper *)

Section RetryFacts.
Import PyStr PromptGenerator.
Local Open Scope Z_scope.

Context {V : Type}.
Variable g : namespace.
Variable retry_function : nat -> bool -> outcome V.
Variable max_consecutive_failures : Z.

Local Abbreviation loop :=
  (PromptGenerator.loop g retry_function max_consecutive_failures).

(** The loop is never cut short: with as much fuel as failures are left
    before the maximum it comes to a result. *)
Lemma loop_total (fuel : nat) :
  forall st,
    max_consecutive_failures - failures st <= Z.of_nat fuel ->
    exists r, loop fuel st = Some r.
Proof.
  induction fuel as [|fuel IH]; intros st Hfuel.
  - cbn [PromptGenerator.loop].
    destruct (failures st <? max_consecutive_failures) eqn:E;
      [apply Z.ltb_lt in E; lia | eauto].
  - cbn [PromptGenerator.loop].
    destruct (failures st <? max_consecutive_failures) eqn:E; [|eauto].
    destruct (retry_function (calls st) (safety_retry st)) as [v|e]; [eauto|].
    destruct (handle g e (count_call st)) as [e'|st2] eqn:Hh; [eauto|].
    destruct (failures (set_failures (failures st2 + 1) st2)
              >=? max_consecutive_failures) eqn:E2; [eauto|].
    apply IH. cbn.
    assert (failures st <= failures st2).
    { unfold handle in Hh. destruct (negb (bound "custom_genai" g));
        [discriminate|].
      destruct e; try (injection Hh as <-; cbn; lia); try discriminate.
      destruct (contains (lit "safety") (lower s));
        injection Hh as <-; cbn; lia. }
    lia.
Qed.

Lemma retry_api_call_total (delay : Z) :
  exists r, retry_api_call g retry_function max_consecutive_failures delay
            = Some r.
Proof.
  unfold retry_api_call. apply loop_total. cbn. lia.
Qed.

(** While the maximum is not reached the operation is called at least
    once. *)
Lemma loop_calls_once (fuel : nat) (st : state) (r : result V) (st' : state) :
  failures st < max_consecutive_failures ->
  loop fuel st = Some (r, st') ->
  (calls st < calls st')%nat.
Proof.
  revert st. induction fuel as [|fuel IH]; intros st Hlt; cbn [PromptGenerator.loop];
    apply Z.ltb_lt in Hlt as Hb; rewrite Hb; [discriminate|].
  destruct (retry_function (calls st) (safety_retry st)) as [v|e].
  { intros [= <- <-]. cbn. lia. }
  destruct (handle g e (count_call st)) as [e'|st2] eqn:Hh.
  { intros [= <- <-]. cbn. lia. }
  assert (Hc : calls st2 = S (calls st)).
  { unfold handle in Hh. destruct (negb (bound "custom_genai" g));
      [discriminate|].
    destruct e; try (injection Hh as <-; reflexivity); try discriminate.
    destruct (contains (lit "safety") (lower s));
      injection Hh as <-; reflexivity. }
  destruct (failures (set_failures (failures st2 + 1) st2)
            >=? max_consecutive_failures) eqn:E2.
  { intros [= <- <-]. cbn. lia. }
  intros Hl.
  destruct fuel as [|fuel'].
  - cbn [PromptGenerator.loop] in Hl. cbn in Hl.
    destruct (failures st2 + 1 <? max_consecutive_failures);
      [discriminate|]. injection Hl as <- <-. cbn. lia.
  - destruct (Z.ltb_spec (failures st2 + 1) max_consecutive_failures) as [Hn|Hn].
    + apply IH in Hl; [cbn in Hl; lia | cbn; lia].
    + cbn [PromptGenerator.loop] in Hl. cbn in Hl.
      apply Z.ltb_ge in Hn. rewrite Hn in Hl.
      injection Hl as <- <-. cbn. lia.
Qed.

(** C10.  With [max_consecutive_failures] at most 0 the loop is not
    entered: [retry_api_call] returns None and the operation is not called
    once. *)
Theorem no_budget_no_call (delay : Z) :
  max_consecutive_failures <= 0 ->
  exists st,
    retry_api_call g retry_function max_consecutive_failures delay
    = Some (Returned None, st) /\ calls st = 0%nat.
Proof.
  intros Hmax. exists (initial delay). split; [|reflexivity].
  unfold retry_api_call.
  destruct (Z.to_nat max_consecutive_failures); cbn [PromptGenerator.loop];
    destruct (Z.ltb_spec (failures (initial delay)) max_consecutive_failures)
      as [H|H]; try reflexivity; cbn in H; lia.
Qed.


(** Failures that each advance the counter by [d]: the operation is
    called until the counter reaches the maximum, that is
    ceil((max - failures) / d) times more, and None is returned. *)
Lemma loop_uniform_failures (d : Z) :
  1 <= d ->
  (forall n kw, exists e,
      retry_function n kw = Raise e /\
      forall st, exists st2,
          handle g e st = inr st2 /\
          failures st2 = failures st + (d - 1) /\ calls st2 = calls st) ->
  forall fuel st,
    max_consecutive_failures - failures st <= Z.of_nat fuel ->
    exists st',
      loop fuel st = Some (Returned None, st') /\
      Z.of_nat (calls st')
      = Z.of_nat (calls st)
        + Z.max 0 ((max_consecutive_failures - failures st + d - 1) / d) /\
      failures st'
      = failures st + d * (Z.of_nat (calls st') - Z.of_nat (calls st)).
Proof.
  intros Hd Hall.
  assert (Hstop : forall st,
             max_consecutive_failures <= failures st ->
             Z.max 0 ((max_consecutive_failures - failures st + d - 1) / d) = 0).
  { intros st H. apply Z.max_l.
    assert ((max_consecutive_failures - failures st + d - 1) / d < 1); [|lia].
    apply Z.div_lt_upper_bound; lia. }
  induction fuel as [|fuel IH]; intros st Hfuel; cbn [PromptGenerator.loop];
    destruct (Z.ltb_spec (failures st) max_consecutive_failures) as [Hlt|Hge];
    try lia;
    try (exists st; split; [reflexivity|]; rewrite (Hstop st Hge); lia).
  destruct (Hall (calls st) (safety_retry st)) as (e & -> & Hh).
  destruct (Hh (count_call st)) as (st2 & -> & Hf2 & Hc2).
  cbn in Hf2, Hc2.
  cbn [failures set_failures].
  destruct (Z.geb_spec (failures st2 + 1) max_consecutive_failures) as [Hdone|Hgo].
  - eexists. split; [reflexivity|]. cbn. rewrite Hc2, Hf2.
    assert ((max_consecutive_failures - failures st + d - 1) / d = 1).
    { symmetry. apply (Z.div_unique_pos _ _ _
                         (max_consecutive_failures - failures st - 1)); lia. }
    lia.
  - match goal with |- exists st', PromptGenerator.loop _ _ _ _ ?s = _ /\ _ =>
      destruct (IH s) as (st' & Hl & Hcalls & Hfail); [cbn; lia|]
    end.
    exists st'. split; [exact Hl|]. cbn in Hcalls, Hfail.
    rewrite Hc2, Hf2 in *.
    assert (Hdiv : (max_consecutive_failures - failures st + d - 1) / d
                   = (max_consecutive_failures
                      - (failures st + (d - 1) + 1) + d - 1) / d + 1).
    { rewrite <- (Z.div_add _ 1 d) by lia. f_equal. lia. }
    assert (0 <= (max_consecutive_failures
                  - (failures st + (d - 1) + 1) + d - 1) / d).
    { apply Z.div_pos; lia. }
    lia.
Qed.

(** What the handlers were written for: with [custom_genai] bound, an
    operation that always raises an exception of the catch-all kind is
    called [max_consecutive_failures] times and None is returned. *)
Lemma generic_failures_use_the_budget (delay : Z) :
  bound "custom_genai" g = true ->
  0 <= max_consecutive_failures ->
  (forall n kw, exists msg, retry_function n kw = Raise (OtherException msg)) ->
  exists st,
    retry_api_call g retry_function max_consecutive_failures delay
    = Some (Returned None, st) /\
    Z.of_nat (calls st) = max_consecutive_failures.
Proof.
  intros Hg Hmax Hall.
  destruct (loop_uniform_failures 1) with
    (fuel := Z.to_nat max_consecutive_failures) (st := initial delay)
    as (st' & Hl & Hcalls & _); [lia| |cbn; lia|].
  - intros n kw. destruct (Hall n kw) as [msg ->].
    eexists. split; [reflexivity|]. intros st. exists st.
    unfold handle. rewrite Hg. cbn. repeat split; lia.
  - exists st'. split; [exact Hl|]. cbn [failures calls initial] in Hcalls.
    rewrite Hcalls, Z.div_1_r. lia.
Qed.


End RetryFacts.

Section RetryExamples.
Import PyStr PromptGenerator.
Local Open Scope Z_scope.

Lemma no_budget_no_call_witness :
  exists st,
    retry_api_call module_globals (Inputs.always_raises Inputs.boom) 0
                   RETRY_DELAY
    = Some (Returned None, st) /\ calls st = 0%nat.
Proof.
  apply (no_budget_no_call module_globals (Inputs.always_raises Inputs.boom)
                           0 RETRY_DELAY).
  lia.
Defined.

(** C2 at the failing input.  The operation raises [Exception("boom")] at
    every call and the maximum is 3.  The first except clause looks up
    [custom_genai], which prompt_generator.py does not bind: NameError
    leaves [retry_api_call] after the first call, where the handlers
    were written to call three times and return None. *)
Theorem failing_call_raises_name_error :
  bound "custom_genai" module_globals = false /\
  retry_api_call module_globals (Inputs.always_raises Inputs.boom) 3
                 RETRY_DELAY
  = Some (Raised (NameError "custom_genai"),
          mkState 0 RETRY_DELAY false 1 []).
Proof.
  split; vm_compute; reflexivity.
Qed.

(** With the name bound the same operation is called three times. *)
Lemma failing_call_with_name_bound :
  retry_api_call Inputs.globals_with_custom_genai
                 (Inputs.always_raises Inputs.boom) 3 RETRY_DELAY
  = Some (Returned None, mkState 3 40 false 3 [20; 10]).
Proof.
  vm_compute. reflexivity.
Qed.


(** With the default maximum of 1000 and the name bound: 91 calls. *)
Lemma invalid_argument_default_budget :
  exists st,
    retry_api_call Inputs.globals_with_custom_genai
                   (Inputs.always_raises Inputs.bad_request)
                   MAX_CONSECUTIVE_FAILURES RETRY_DELAY
    = Some (Returned None, st) /\
    calls st = 91%nat /\ failures st = 1001.
Proof.
  eexists. split; [vm_compute; reflexivity|]. split; reflexivity.
Qed.


End RetryExamples.

(* ------------------------------------------------------------------ *)
(** * Properties of the outer retry loop *)

Section RetryStoryFacts.
Import PyStr StoryGenerator.

(** A result with too few segments or too few images does not pass. *)
Lemma insufficient_is_failure (r : story_result) (text : str)
      (images : list str) :
  story_text r = Some text ->
  image_files r = Some images ->
  List.length (Utils.story_segments_of text) < MIN_STORY_SEGMENTS \/
  List.length images < MIN_STORY_SEGMENTS ->
  sufficient (Some r) = false.
Proof.
  intros Ht Hi H. unfold sufficient. rewrite Ht, Hi.
  apply andb_false_iff.
  destruct H as [H | H]; [left | right]; apply Nat.leb_gt; exact H.
Qed.

Lemma sufficient_has_enough (result : option story_result) :
  sufficient result = true ->
  exists r text images,
    result = Some r /\ story_text r = Some text /\
    image_files r = Some images /\
    MIN_STORY_SEGMENTS <= List.length (Utils.story_segments_of text) /\
    MIN_STORY_SEGMENTS <= List.length images.
Proof.
  unfold sufficient. destruct result as [r|]; [|discriminate].
  destruct (story_text r) as [text|] eqn:Ht; [|discriminate].
  destruct (image_files r) as [images|] eqn:Hi; [|discriminate].
  intros H. apply andb_true_iff in H as [H1 H2].
  apply Nat.leb_le in H1, H2.
  exists r, text, images. auto.
Qed.

Variable generate : nat -> generation.

(** The loop from [retry_count], with [left] attempts to go: the runs of
    [generate] are those numbered [retry_count], [retry_count + 1], ... up
    to the first that succeeds. *)
Lemma attempts_spec (left : nat) :
  forall retry_count,
    let '(returned, final_count) := attempts generate left retry_count in
    retry_count <= final_count <= retry_count + left /\
    (forall i, retry_count <= i -> S i < final_count ->
               attempt_succeeds (generate i) = false) /\
    match returned with
    | Some r =>
        retry_count < final_count /\
        generate (final_count - 1) = Generated (Some r) /\
        sufficient (Some r) = true
    | None =>
        final_count = retry_count + left /\
        forall i, retry_count <= i -> i < final_count ->
                  attempt_succeeds (generate i) = false
    end.
Proof.
  induction left as [|left IH]; intros retry_count; cbn [attempts].
  - split; [lia|]. split; [intros; lia|]. split; [lia|]. intros; lia.
  - replace (S retry_count - 1) with retry_count by lia.
    assert (Hnext : attempt_succeeds (generate retry_count) = false ->
              let '(returned, final_count) :=
                attempts generate left (S retry_count) in
              retry_count <= final_count <= retry_count + S left /\
              (forall i, retry_count <= i -> S i < final_count ->
                         attempt_succeeds (generate i) = false) /\
              match returned with
              | Some r =>
                  retry_count < final_count /\
                  generate (final_count - 1) = Generated (Some r) /\
                  sufficient (Some r) = true
              | None =>
                  final_count = retry_count + S left /\
                  forall i, retry_count <= i -> i < final_count ->
                            attempt_succeeds (generate i) = false
              end).
    { intros Hfail. specialize (IH (S retry_count)).
      destruct (attempts generate left (S retry_count)) as [returned n].
      destruct IH as (Hn & Hbefore & Hret).
      assert (Hi : forall i, retry_count <= i ->
                     (S retry_count <= i ->
                      attempt_succeeds (generate i) = false) ->
                     attempt_succeeds (generate i) = false).
      { intros i Hle H. destruct (Nat.eq_dec i retry_count) as [-> | Hne];
          [exact Hfail | apply H; lia]. }
      split; [lia|]. split.
      - intros i Hle Hlt. apply Hi; [exact Hle|]. intros. apply Hbefore; lia.
      - destruct returned as [r|].
        + destruct Hret as (H1 & H2 & H3). repeat split; [lia | | ]; assumption.
        + destruct Hret as (H1 & H2). split; [lia|].
          intros i Hle Hlt. apply Hi; [exact Hle|]. intros. apply H2; lia. }
    destruct (generate retry_count) as [result|] eqn:Hrun.
    + destruct (sufficient result) eqn:Hs.
      * split; [lia|]. split; [intros; lia|].
        destruct (sufficient_has_enough result Hs) as (r & ? & ? & -> & _).
        replace (S retry_count - 1) with retry_count by lia.
        repeat split; [lia | exact Hrun | exact Hs].
      * apply Hnext. exact Hs.
    + apply Hnext. reflexivity.
Qed.

(** C4.  [retry_story_generation] runs [generate] anew for each attempt,
    at least once and at most 5 times; a run that raises, returns nothing,
    or returns a result with fewer than MIN_STORY_SEGMENTS cleaned
    segments or fewer than MIN_STORY_SEGMENTS image files is a failure and
    is followed by the next run; the result of the first run that passes
    is returned, and None after five failures. *)
Theorem retry_story_generation_spec :
  let '(returned, retry_count) := retry_story_generation generate in
  (1 <= retry_count <= 5) /\
  (forall i, S i < retry_count -> attempt_succeeds (generate i) = false) /\
  (forall r text images,
      story_text r = Some text -> image_files r = Some images ->
      List.length (Utils.story_segments_of text) < MIN_STORY_SEGMENTS \/
      List.length images < MIN_STORY_SEGMENTS ->
      attempt_succeeds (Generated (Some r)) = false) /\
  match returned with
  | Some r =>
      generate (retry_count - 1) = Generated (Some r) /\
      exists text images,
        story_text r = Some text /\ image_files r = Some images /\
        MIN_STORY_SEGMENTS <= List.length (Utils.story_segments_of text) /\
        MIN_STORY_SEGMENTS <= List.length images
  | None =>
      retry_count = 5 /\
      forall i, i < 5 -> attempt_succeeds (generate i) = false
  end /\
  ((forall i, i < 5 -> attempt_succeeds (generate i) = false) ->
   returned = None).
Proof.
  unfold retry_story_generation.
  pose proof (attempts_spec max_retries 0) as H.
  destruct (attempts generate max_retries 0) as [returned n].
  destruct H as (Hn & Hbefore & Hret). unfold max_retries in *.
  split.
  { split; [|lia]. destruct returned as [r|]; [|destruct Hret]; lia. }
  split; [intros i Hi; apply Hbefore; lia|].
  split; [intros r text images; apply insufficient_is_failure|].
  destruct returned as [r|].
  - destruct Hret as (Hpos & Hrun & Hs). split.
    + split; [exact Hrun|].
      destruct (sufficient_has_enough _ Hs)
        as (r' & text & images & [= <-] & H).
      exists text, images. exact H.
    + intros Hall. specialize (Hall (n - 1)).
      rewrite Hrun in Hall. cbn [attempt_succeeds] in Hall.
      rewrite Hs in Hall. assert (true = false) by (apply Hall; lia).
      discriminate.
  - destruct Hret as (-> & Hall). split; [|reflexivity].
    split; [reflexivity|].
    intros i Hi. apply Hall; lia.
Qed.

End RetryStoryFacts.

(* ------------------------------------------------------------------ *)
(** * Properties of the image files and their order *)

Section SortedFacts.
Import StoryGenerator.
Context {A B : Type}.
Variable ltA : A -> A -> bool.
Variable ltB : B -> B -> bool.
Variable f : A -> B.

Lemma In_insert (x y : A) (l : list A) :
  In y (insert ltA x l) -> y = x \/ In y l.
Proof.
  induction l as [|z l IH]; simpl.
  - intros [<- | []]. left. reflexivity.
  - destruct (ltA x z); simpl.
    + intros [<- | H]; auto.
    + intros [<- | H]; auto. destruct (IH H); auto.
Qed.

Lemma insert_map (x : A) (l : list A) :
  (forall y, In y l -> ltB (f x) (f y) = ltA x y) ->
  insert ltB (f x) (map f l) = map f (insert ltA x l).
Proof.
  induction l as [|z l IH]; intros H; simpl; [reflexivity|].
  rewrite (H z (or_introl eq_refl)).
  destruct (ltA x z); simpl; [reflexivity|].
  f_equal. apply IH. intros y Hy. apply H. right. exact Hy.
Qed.

Lemma fold_insert_map (l acc : list A) :
  (forall x y, In x (acc ++ l) -> In y (acc ++ l) ->
               ltB (f x) (f y) = ltA x y) ->
  fold_left (fun a x => insert ltB x a) (map f l) (map f acc)
  = map f (fold_left (fun a x => insert ltA x a) l acc).
Proof.
  revert acc. induction l as [|x l IH]; intros acc H; simpl; [reflexivity|].
  rewrite insert_map.
  - apply IH. intros a b Ha Hb.
    apply H; apply in_app_iff; simpl.
    + apply in_app_iff in Ha as [Ha | Ha]; auto.
      apply In_insert in Ha as [-> | Ha]; auto.
    + apply in_app_iff in Hb as [Hb | Hb]; auto.
      apply In_insert in Hb as [-> | Hb]; auto.
  - intros y Hy. apply H; apply in_app_iff; simpl; auto.
Qed.

(** Sorting commutes with a map that respects the order. *)
Lemma sorted_map (l : list A) :
  (forall x y, In x l -> In y l -> ltB (f x) (f y) = ltA x y) ->
  sorted ltB (map f l) = map f (sorted ltA l).
Proof.
  intros H. unfold sorted. apply (fold_insert_map l []). exact H.
Qed.

Lemma insert_last (x : A) (l : list A) :
  (forall y, In y l -> ltA x y = false) ->
  insert ltA x l = l ++ [x].
Proof.
  induction l as [|z l IH]; intros H; simpl; [reflexivity|].
  rewrite (H z (or_introl eq_refl)). f_equal.
  apply IH. intros y Hy. apply H. right. exact Hy.
Qed.

End SortedFacts.

Section ImageFacts.
Import PyStr StoryGenerator.

Lemma ascending_above (l : list nat) :
  forall lo x, ascending lo l -> In x l -> lo < x.
Proof.
  induction l as [|y l IH]; intros lo x H Hin; [destruct Hin|].
  destruct H as [Hlo Hrest]. destruct Hin as [<- | Hin]; [exact Hlo|].
  specialize (IH y x Hrest Hin). lia.
Qed.

Lemma ascending_weaken (l : list nat) (lo lo' : nat) :
  lo' <= lo -> ascending lo l -> ascending lo' l.
Proof.
  destruct l as [|x l]; simpl; [auto|]. intros Hle [H1 H2]. split; [lia|auto].
Qed.

Lemma ascending_app (l1 : list nat) :
  forall lo l2 hi,
    lo <= hi ->
    ascending lo l1 -> (forall x, In x l1 -> x <= hi) -> ascending hi l2 ->
    ascending lo (l1 ++ l2).
Proof.
  induction l1 as [|x l1 IH]; intros lo l2 hi Hle H1 Hhi H2; simpl.
  - apply (ascending_weaken l2 hi lo); [exact Hle | exact H2].
  - destruct H1 as [Hlo H1]. split; [exact Hlo|].
    apply (IH x l2 hi); [apply Hhi; left; reflexivity | exact H1 | | exact H2].
    intros y Hy. apply Hhi. right. exact Hy.
Qed.

(** Numbers that go up are left as they are by the sort. *)
Lemma fold_insert_ascending (l : list nat) :
  forall acc lo,
    (forall y, In y acc -> y <= lo) -> ascending lo l ->
    fold_left (fun a x => insert Nat.ltb x a) l acc = acc ++ l.
Proof.
  induction l as [|x l IH]; intros acc lo Hacc Hl; simpl.
  - symmetry. apply app_nil_r.
  - destruct Hl as [Hlo Hl]. rewrite insert_last.
    + rewrite (IH (acc ++ [x]) x); [rewrite <- app_assoc; reflexivity | | exact Hl].
      intros y Hy. apply in_app_iff in Hy as [Hy | [<- | []]]; [|lia].
      specialize (Hacc y Hy). lia.
    + intros y Hy. apply Nat.ltb_ge. specialize (Hacc y Hy). lia.
Qed.

Lemma sorted_ascending (l : list nat) (lo : nat) :
  ascending lo l -> sorted Nat.ltb l = l.
Proof.
  intros H. unfold sorted.
  apply (fold_insert_ascending l [] lo); [intros y []|exact H].
Qed.

(** The sort of numbers gives the same numbers in ascending order. *)
Lemma insert_nat_sorted (x : nat) (l : list nat) :
  Sorted le l -> Sorted le (insert Nat.ltb x l).
Proof.
  induction l as [|y l IH]; intros H; simpl.
  - constructor; constructor.
  - destruct (Nat.ltb_spec x y) as [Hlt | Hge].
    + constructor; [exact H|]. constructor. lia.
    + inversion H as [|? ? Hs Hhd]; subst.
      constructor; [apply IH; exact Hs|].
      destruct l as [|z l]; simpl; [constructor; exact Hge|].
      destruct (Nat.ltb_spec x z); constructor; [exact Hge|].
      inversion Hhd; assumption.
Qed.

Lemma insert_nat_permutation (x : nat) (l : list nat) :
  Permutation (x :: l) (insert Nat.ltb x l).
Proof.
  induction l as [|y l IH]; simpl; [reflexivity|].
  destruct (x <? y); [reflexivity|].
  rewrite perm_swap. constructor. exact IH.
Qed.

Lemma sorted_nat_sorted (l : list nat) :
  Sorted le (sorted Nat.ltb l) /\ Permutation l (sorted Nat.ltb l).
Proof.
  unfold sorted.
  assert (H : forall acc, Sorted le acc ->
                Sorted le (fold_left (fun a x => insert Nat.ltb x a) l acc) /\
                Permutation (acc ++ l)
                            (fold_left (fun a x => insert Nat.ltb x a) l acc)).
  { induction l as [|x l IH]; intros acc Hacc; simpl.
    - split; [exact Hacc | rewrite app_nil_r; reflexivity].
    - destruct (IH (insert Nat.ltb x acc) (insert_nat_sorted x acc Hacc))
        as [H1 H2].
      split; [exact H1|].
      rewrite <- H2, <- insert_nat_permutation.
      symmetry. apply Permutation_middle. }
  apply (H []). constructor.
Qed.

End ImageFacts.

Section ImageOrder.
Import PyStr StoryGenerator.

Lemma str_ltb_app (p a b : str) :
  str_ltb (p ++ a) (p ++ b) = str_ltb a b.
Proof.
  induction p as [|c p IH]; simpl; [reflexivity|].
  rewrite Nat.ltb_irrefl, Nat.eqb_refl. exact IH.
Qed.

Lemma image_path_prefix (temp_dir : str) (n : nat) :
  image_path temp_dir n = dir_prefix temp_dir ++ image_name n.
Proof.
  unfold image_path, path_join, dir_prefix.
  replace (startswith [sep] (image_name n)) with false by reflexivity.
  destruct (negb (truthy temp_dir) || endswith_sep temp_dir);
    [reflexivity|].
  rewrite <- app_assoc. reflexivity.
Qed.


(** Up to 99 the names compare as their numbers do. *)
Lemma image_name_order (a b : nat) :
  a <= 99 -> b <= 99 ->
  str_ltb (image_name a) (image_name b) = (a <? b).
Proof.
  intros Ha Hb.
  assert (H : forallb
                (fun x =>
                   forallb
                     (fun y => Bool.eqb (str_ltb (image_name x) (image_name y))
                                        (x <? y))
                     (seq 0 100))
                (seq 0 100) = true) by (vm_compute; reflexivity).
  rewrite forallb_forall in H.
  assert (Hx : In a (seq 0 100)) by (apply in_seq; lia).
  specialize (H a Hx). rewrite forallb_forall in H.
  assert (Hy : In b (seq 0 100)) by (apply in_seq; lia).
  apply Bool.eqb_prop. exact (H b Hy).
Qed.

Lemma image_path_order (temp_dir : str) (a b : nat) :
  a <= 99 -> b <= 99 ->
  str_ltb (image_path temp_dir a) (image_path temp_dir b) = (a <? b).
Proof.
  intros Ha Hb. rewrite !image_path_prefix, str_ltb_app.
  apply image_name_order; assumption.
Qed.

Lemma sorted_paths_by_number (temp_dir : str) (numbers : list nat) :
  (forall n, In n numbers -> n <= 99) ->
  sorted str_ltb (map (image_path temp_dir) numbers)
  = map (image_path temp_dir) (sorted Nat.ltb numbers).
Proof.
  intros Hall. apply sorted_map. intros x y Hx Hy.
  apply image_path_order; apply Hall; assumption.
Qed.

Lemma sorted_paths_ascending (temp_dir : str) (numbers : list nat) (lo : nat) :
  (forall n, In n numbers -> n <= 99) ->
  ascending lo numbers ->
  sorted str_ltb (map (image_path temp_dir) numbers)
  = map (image_path temp_dir) numbers.
Proof.
  intros Hall Hasc.
  rewrite (sorted_paths_by_number temp_dir numbers Hall),
    (sorted_ascending numbers lo Hasc).
  reflexivity.
Qed.



(** From 100 on the name has three digits and the orders part. *)
Lemma three_digits_sort_first :
  sorted str_ltb [image_path (lit "/tmp/tmpab12") 99;
                  image_path (lit "/tmp/tmpab12") 100]
  = [image_path (lit "/tmp/tmpab12") 100;
     image_path (lit "/tmp/tmpab12") 99].
Proof. vm_compute. reflexivity. Qed.

(** The inner loop appends paths whose numbers go up from
    [image_count]. *)
Lemma save_parts_spec (temp_dir : str) (parts : list part) :
  forall files count,
    let '(files', count') := save_parts temp_dir parts files count in
    count <= count' /\
    exists numbers,
      files' = files ++ map (image_path temp_dir) numbers /\
      ascending count numbers /\
      (forall n, In n numbers -> n <= count').
Proof.
  induction parts as [|p parts IH]; intros files count; cbn [save_parts].
  - split; [lia|]. exists []. rewrite app_nil_r.
    repeat split. intros n [].
  - destruct p as [|ok].
    + apply IH.
    + destruct ok.
      * specialize (IH (files ++ [image_path temp_dir (S count)]) (S count)).
        destruct (save_parts temp_dir parts
                             (files ++ [image_path temp_dir (S count)])
                             (S count)) as [files' count'].
        destruct IH as (Hle & numbers & -> & Hasc & Hmax).
        split; [lia|]. exists (S count :: numbers).
        split; [rewrite <- app_assoc; reflexivity|].
        split; [split; [lia | exact Hasc]|].
        intros n [<- | Hn]; [lia | apply Hmax; exact Hn].
      * specialize (IH files (S count)).
        destruct (save_parts temp_dir parts files (S count))
          as [files' count'].
        destruct IH as (Hle & numbers & -> & Hasc & Hmax).
        split; [lia|]. exists numbers.
        split; [reflexivity|].
        split; [apply (ascending_weaken numbers (S count)); [lia|exact Hasc]|].
        exact Hmax.
Qed.

Lemma process_chunks_spec (temp_dir : str) (response : list chunk) :
  forall raw files count,
    let '(_, files', count') :=
      process_chunks temp_dir response raw files count in
    count <= count' /\
    exists numbers,
      files' = files ++ map (image_path temp_dir) numbers /\
      ascending count numbers /\
      (forall n, In n numbers -> n <= count').
Proof.
  induction response as [|c response IH]; intros raw files count;
    cbn [process_chunks].
  - split; [lia|]. exists []. rewrite app_nil_r.
    repeat split. intros n [].
  - set (raw' := match chunk_text c with
                 | Some t => if truthy t then raw ++ t else raw
                 | None => raw
                 end).
    assert (Hstep :
              let '(files1, count1) :=
                match chunk_parts c with
                | Some parts => save_parts temp_dir parts files count
                | None => (files, count)
                end in
              count <= count1 /\
              exists numbers,
                files1 = files ++ map (image_path temp_dir) numbers /\
                ascending count numbers /\
                (forall n, In n numbers -> n <= count1)).
    { destruct (chunk_parts c) as [parts|]; [apply save_parts_spec|].
      split; [lia|]. exists []. rewrite app_nil_r.
      repeat split. intros n []. }
    destruct (match chunk_parts c with
              | Some parts => save_parts temp_dir parts files count
              | None => (files, count)
              end) as [files1 count1].
    destruct Hstep as (Hle1 & numbers1 & -> & Hasc1 & Hmax1).
    specialize (IH raw' (files ++ map (image_path temp_dir) numbers1) count1).
    destruct (process_chunks temp_dir response raw'
                             (files ++ map (image_path temp_dir) numbers1)
                             count1) as [[raw2 files2] count2].
    destruct IH as (Hle2 & numbers2 & -> & Hasc2 & Hmax2).
    split; [lia|]. exists (numbers1 ++ numbers2).
    split; [rewrite map_app, app_assoc; reflexivity|].
    split; [apply (ascending_app numbers1 count numbers2 count1); assumption|].
    intros n Hn. apply in_app_iff in Hn as [Hn | Hn];
      [specialize (Hmax1 n Hn); lia | apply Hmax2; exact Hn].
Qed.

(** The image files of one response, with at most 99 images: their
    numbers go up, and [sorted(image_files)] is [image_files]. *)
Lemma stream_image_files_in_order (temp_dir : str) (response : list chunk) :
  let '(_, image_files, image_count) :=
    attempt_stream_generation temp_dir response in
  image_count <= 99 ->
  exists numbers,
    image_files = map (image_path temp_dir) numbers /\
    ascending 0 numbers /\
    sorted str_ltb image_files = image_files.
Proof.
  unfold attempt_stream_generation.
  pose proof (process_chunks_spec temp_dir response [] [] 0) as H.
  destruct (process_chunks temp_dir response [] [] 0)
    as [[raw files] count].
  destruct H as (_ & numbers & -> & Hasc & Hmax).
  intros Hcount. exists numbers. cbn [app].
  split; [reflexivity|]. split; [exact Hasc|].
  apply (sorted_paths_ascending temp_dir numbers 0); [|exact Hasc].
  intros n Hn. specialize (Hmax n Hn). lia.
Qed.

End ImageOrder.

(* ------------------------------------------------------------------ *)
(** * Properties of the default metadata *)

Section SeoFacts.
Import PyStr Seo.

(** C6.  For every story text and prompt text (and date),
    [default_seo_metadata] returns a title of at most 60 characters and a
    list of tags that is not empty: it has fifteen tags. *)
Theorem default_metadata_title_and_tags (timestamp story_text prompt_text : str) :
  let m := default_seo_metadata timestamp story_text prompt_text in
  List.length (title m) <= 60 /\
  tags m <> [] /\
  List.length (tags m) = 15.
Proof.
  unfold default_seo_metadata.
  destruct (Re.search pattern_char_setting prompt_text) as [m|];
    cbn [title tags]; (split; [apply firstn_le_length|]);
    (split; [discriminate | reflexivity]).
Qed.

(** The title of the default prompt is cut at 60 characters. *)
Lemma goat_prompt_title :
  title (default_seo_metadata (lit "2025-01-01") (lit "Pip woke up.")
                              Inputs.goat_prompt)
  = lit "Adventure of a white baby goat named Pip in a farm in a high".
Proof. vm_compute. reflexivity. Qed.

End SeoFacts.

(* ------------------------------------------------------------------ *)
(** * Properties of the video timing *)

Section VideoFacts.
Import Video.






End VideoFacts.

(* ------------------------------------------------------------------ *)
(** * More on the retry wrapper: what it costs and when it sleeps *)

Section RetrySchedule.
Import PyStr PromptGenerator Backoff.
Local Open Scope Z_scope.

Context {V : Type}.
Variable g : namespace.
Variable retry_function : nat -> bool -> outcome V.
Variable max_consecutive_failures : Z.

Local Abbreviation run_loop :=
  (PromptGenerator.loop g retry_function max_consecutive_failures).










(** What the handlers do to the counters. *)
Lemma handle_keeps_counts (e : exn) (st st2 : state) :
  handle g e st = inr st2 ->
  failures st <= failures st2 /\ calls st2 = calls st /\
  sleeps st2 = sleeps st /\
  (retry_delay st2 = retry_delay st \/ retry_delay st2 = 60).
Proof.
  unfold handle. destruct (negb (bound "custom_genai" g)); [discriminate|].
  destruct e; try discriminate;
    try (intros [= <-]; cbn; repeat split; auto; lia).
  destruct (contains (lit "safety") (lower s)); intros [= <-]; cbn;
    repeat split; auto; lia.
Qed.

Lemma loop_invariant (delay : Z) (fuel : nat) :
  forall st r st',
    at_head delay st ->
    failures st < max_consecutive_failures ->
    run_loop fuel st = Some (r, st') ->
    Z.of_nat (calls st') <= max_consecutive_failures /\
    S (List.length (sleeps st')) = calls st' /\
    sleeps_capped delay (sleeps st').
Proof.
  induction fuel as [|fuel IH]; intros st r st' Hhead Hlt;
    cbn [PromptGenerator.loop]; apply Z.ltb_lt in Hlt as Hb; rewrite Hb;
    [discriminate|].
  destruct Hhead as (Hcalls & Hlen & Hcap & Hfirst & Hlater).
  destruct (retry_function (calls st) (safety_retry st)) as [v|e].
  { intros [= <- <-]. cbn. repeat split; [lia|lia|exact Hcap]. }
  destruct (handle g e (count_call st)) as [e'|st2] eqn:Hh.
  { intros [= <- <-]. cbn. repeat split; [lia|lia|exact Hcap]. }
  apply handle_keeps_counts in Hh as (Hf2 & Hc2 & Hs2 & Hd2).
  cbn in Hf2, Hc2, Hs2, Hd2. cbn [failures set_failures].
  destruct (Z.geb_spec (failures st2 + 1) max_consecutive_failures)
    as [Hdone|Hgo].
  { intros [= <- <-]. cbn. rewrite Hc2, Hs2.
    repeat split; [lia|lia|exact Hcap]. }
  apply IH; [|cbn; lia].
  unfold at_head. cbn. rewrite Hc2, Hs2.
  split; [lia|]. split; [lia|]. split; [|split; [discriminate|]].
  - destruct (sleeps st) as [|x l] eqn:Hsl.
    + right. exists [], (retry_delay st2). split; [reflexivity|].
      split; [|constructor].
      assert (calls st = 0%nat) by (rewrite <- Hlen; reflexivity).
      rewrite (Hfirst H) in Hd2. exact Hd2.
    + destruct Hcap as [Hnil | (later & first & Heq & Hf & Hall)];
        [discriminate|].
      right. exists (retry_delay st2 :: later), first.
      split; [rewrite Heq; reflexivity|]. split; [exact Hf|].
      constructor; [|exact Hall].
      assert (calls st <> 0%nat) by (rewrite <- Hlen; discriminate).
      specialize (Hlater H). lia.
  - intros _. unfold next_delay. lia.
Qed.

(** X4.  The cost of a call.  Whatever the operation does and whatever names
    are bound, with a maximum of at least 1 [retry_api_call] calls the
    operation at least once and at most [max_consecutive_failures]
    times, and sleeps once between two calls and never after the last. *)
Theorem calls_and_sleeps_are_bounded (delay : Z) :
  1 <= max_consecutive_failures ->
  exists r st,
    retry_api_call g retry_function max_consecutive_failures delay
    = Some (r, st) /\
    1 <= Z.of_nat (calls st) <= max_consecutive_failures /\
    S (List.length (sleeps st)) = calls st.
Proof.
  intros Hmax.
  destruct (retry_api_call_total g retry_function max_consecutive_failures
                                 delay) as [[r st] Hr].
  exists r, st. split; [exact Hr|].
  unfold retry_api_call in Hr.
  apply (loop_invariant delay) in Hr as (H1 & H2 & _); [| |cbn; lia].
  - split; [lia | exact H2].
  - unfold at_head. cbn. repeat split; try lia. left. reflexivity.
Qed.

(** X5.  The cap of the delays.  Of the sleeps of a run the first is the
    delay given, or 60 after a quota error, and every later one is of at
    most 60 (all before the random jitter factor). *)
Theorem later_sleeps_are_capped (delay : Z) (r : result V) (st : state) :
  retry_api_call g retry_function max_consecutive_failures delay
  = Some (r, st) ->
  sleeps st = [] \/
  exists later first,
    sleeps st = later ++ [first] /\ (first = delay \/ first = 60) /\
    Forall (fun d => d <= 60) later.
Proof.
  intros Hr. unfold retry_api_call in Hr.
  destruct (Z.ltb_spec 0 max_consecutive_failures) as [Hpos|Hneg].
  - apply (loop_invariant delay) in Hr as (_ & _ & H); [exact H| |cbn; lia].
    unfold at_head. cbn. repeat split; try lia. left. reflexivity.
  - left. destruct (Z.to_nat max_consecutive_failures);
      cbn [PromptGenerator.loop] in Hr;
      destruct (Z.ltb_spec (failures (initial delay)) max_consecutive_failures)
        as [H|H]; cbn in H; try lia; injection Hr as <- <-; reflexivity.
Qed.

End RetrySchedule.

(* ------------------------------------------------------------------ *)
(** * More on the text segmentation: blank input, text mode, lengths *)

Section StoryTextFacts.
Import PyStr Re Utils.

Lemma lstrip_spaces (s : str) :
  Forall (fun c => isspace c = true) s -> lstrip s = [].
Proof.
  induction 1 as [|c s Hc _ IH]; simpl; [reflexivity|].
  rewrite Hc. exact IH.
Qed.

Lemma strip_spaces (s : str) :
  Forall (fun c => isspace c = true) s -> strip s = [].
Proof.
  intros H. unfold strip. rewrite (lstrip_spaces s H). reflexivity.
Qed.

(** X6.  Blank input.  For a text of whitespace only (the empty text
    included) [collect_complete_story] returns the empty list in segment
    mode and the empty text otherwise. *)
Theorem blank_text_gives_nothing (raw_text : str) (return_segments : bool) :
  Forall (fun c => isspace c = true) raw_text ->
  collect_complete_story raw_text return_segments
  = if return_segments then Segments [] else Text [].
Proof.
  intros H. unfold collect_complete_story.
  rewrite (strip_spaces raw_text H).
  destruct return_segments; vm_compute; reflexivity.
Qed.

(** X7.  Text mode.  Without [return_segments] the function returns either the
    segments joined by blank lines or, when that text is shorter than 100
    characters and the stripped input longer than 100, the stripped input
    as it is; so an input of more than 100 characters after stripping
    never gives a text of fewer than 100. *)
Theorem text_mode_falls_back_to_the_input (raw_text : str) :
  exists t,
    collect_complete_story raw_text false = Text t /\
    (t = join [nl; nl] (story_segments_of raw_text) \/
     (t = strip raw_text /\
      List.length (join [nl; nl] (story_segments_of raw_text)) < 100)) /\
    (100 < List.length (strip raw_text) -> 100 <= List.length t).
Proof.
  unfold story_segments_of, collect_complete_story.
  set (segs := final_cleanup _).
  destruct (Nat.ltb_spec (List.length (join [nl; nl] segs)) 100) as [Hs|Hs];
    destruct (Nat.ltb_spec 100 (List.length (strip raw_text))) as [Hl|Hl];
    cbn [andb]; eexists; (split; [reflexivity|]); split; auto; lia.
Qed.

Lemma lstrip_length (s : str) : List.length (lstrip s) <= List.length s.
Proof.
  induction s as [|c s IH]; simpl; [lia|].
  destruct (isspace c); simpl; lia.
Qed.

Lemma strip_length (s : str) : List.length (strip s) <= List.length s.
Proof.
  unfold strip, rstrip. rewrite length_rev.
  pose proof (lstrip_length (rev (lstrip s))) as H1.
  rewrite length_rev in H1.
  pose proof (lstrip_length s). lia.
Qed.

Lemma replace_go_length (old : str) (s : str) :
  forall skip, List.length (replace_go old [] s skip) <= List.length s.
Proof.
  induction s as [|c s IH]; intros skip; simpl; [lia|].
  destruct skip as [|k]; [|specialize (IH k); lia].
  destruct (startswith old (c :: s)); simpl.
  - specialize (IH (List.length old - 1)). lia.
  - specialize (IH 0). lia.
Qed.

Lemma replace_length (old : str) (s : str) :
  List.length (replace old [] s) <= List.length s.
Proof.
  unfold replace. destruct old as [|a old]; [|apply replace_go_length].
  simpl. induction s as [|c s IH]; simpl; lia.
Qed.

Lemma join_nil (l : list str) : join [] l = List.concat l.
Proof.
  induction l as [|x l IH]; [reflexivity|].
  destruct l as [|y l]; [simpl; rewrite app_nil_r; reflexivity|].
  change (join [] (x :: y :: l)) with (x ++ [] ++ join [] (y :: l)).
  rewrite IH. reflexivity.
Qed.

(** The pieces of a scan are parts of the text: together they are no
    longer than the text that is scanned. *)
Lemma pieces_go_length (r : regex) (s : str) :
  forall pos skip cur,
    List.length (List.concat (pieces_go r pos s skip cur))
    <= List.length cur + List.length s.
Proof.
  induction s as [|c s IH]; intros pos skip cur.
  - destruct skip as [|k]; cbn [pieces_go].
    + destruct (match_at r pos [] false) as [[[|n] cs]|].
      * destruct (match_at r pos [] true) as [[[|m] cs']|]; simpl;
          rewrite ?app_nil_r, ?length_rev; lia.
      * simpl. rewrite ?app_nil_r, ?length_rev. lia.
      * simpl. rewrite ?app_nil_r, ?length_rev. lia.
    + simpl. rewrite ?app_nil_r, ?length_rev. lia.
  - destruct skip as [|k]; cbn [pieces_go].
    + destruct (match_at r pos (c :: s) false) as [[[|n] cs]|].
      * destruct (match_at r pos (c :: s) true) as [[[|m] cs']|].
        -- cbn [List.concat]. rewrite length_app, length_rev.
           specialize (IH (S pos) 0 [c]). simpl in *. lia.
        -- cbn [List.concat app]. rewrite length_app, length_rev.
           specialize (IH (S pos) m []). simpl in *. lia.
        -- cbn [List.concat]. rewrite length_app, length_rev.
           specialize (IH (S pos) 0 [c]). simpl in *. lia.
      * cbn [List.concat]. rewrite length_app, length_rev.
        specialize (IH (S pos) n []). simpl in *. lia.
      * specialize (IH (S pos) 0 (c :: cur)). simpl in *. lia.
    + specialize (IH (S pos) k cur). simpl. lia.
Qed.

Lemma split_length (r : regex) (s : str) :
  List.length (List.concat (Re.split r s)) <= List.length s.
Proof.
  unfold Re.split. pose proof (pieces_go_length r s 0 0 []). simpl in *. lia.
Qed.

Lemma sub_length (r : regex) (s : str) :
  List.length (Re.sub r [] s) <= List.length s.
Proof.
  unfold Re.sub. rewrite join_nil.
  pose proof (pieces_go_length r s 0 0 []). simpl in *. lia.
Qed.

Lemma stripped_nonempty_length (l : list str) :
  List.length (List.concat (stripped_nonempty l)) <= List.length (List.concat l).
Proof.
  unfold stripped_nonempty.
  induction l as [|x l IH]; simpl; [lia|].
  rewrite length_app. pose proof (strip_length x).
  destruct (truthy (strip x)); simpl; rewrite ?length_app; lia.
Qed.

Lemma clean_length (segment : str) :
  List.length (clean segment) <= List.length segment.
Proof.
  unfold clean.
  pose proof (sub_length pattern_bracket
                (Re.sub pattern_image [] (strip (replace backticks [] segment)))).
  pose proof (sub_length pattern_image (strip (replace backticks [] segment))).
  pose proof (strip_length (replace backticks [] segment)).
  pose proof (replace_length backticks segment). lia.
Qed.

Lemma final_cleanup_total_length (segments : list str) :
  List.length (List.concat (final_cleanup segments))
  <= List.length (List.concat segments).
Proof.
  induction segments as [|x l IH]; simpl; [lia|].
  rewrite length_app. pose proof (clean_length x).
  destruct (not_story x); [lia|].
  destruct (truthy (clean x)); simpl; rewrite ?length_app; lia.
Qed.

Lemma potential_segments_length (p : regex) (text : str) :
  List.length (List.concat (potential_segments p text)) <= List.length text.
Proof.
  unfold potential_segments.
  pose proof (stripped_nonempty_length (Re.split p text)).
  pose proof (split_length p text). lia.
Qed.

Lemma try_patterns_length (patterns : list regex) (text : str) :
  List.length (List.concat (try_patterns patterns text)) <= List.length text.
Proof.
  induction patterns as [|p rest IH]; cbn [try_patterns]; [simpl; lia|].
  destruct (3 <=? List.length (potential_segments p text));
    [apply potential_segments_length | exact IH].
Qed.

(** X8.  Nothing is added.  Splitting, stripping, filtering and cleaning only
    take characters away: the segments [collect_complete_story] returns
    have, all together, no more characters than the input text. *)
Theorem segments_are_no_longer_than_the_input (raw_text : str) :
  List.length (List.concat (story_segments_of raw_text)) <= List.length raw_text.
Proof.
  unfold story_segments_of, collect_complete_story.
  etransitivity; [apply final_cleanup_total_length|].
  pose proof (strip_length raw_text).
  destruct (try_patterns segment_patterns (strip raw_text)) eqn:E.
  - unfold paragraphs.
    pose proof (potential_segments_length pattern_blank_line (strip raw_text)).
    unfold potential_segments in *. lia.
  - rewrite <- E.
    pose proof (try_patterns_length segment_patterns (strip raw_text)). lia.
Qed.

End StoryTextFacts.

(* ------------------------------------------------------------------ *)
(** * The matcher finds only what the pattern allows *)

Section MatcherSoundness.
Import PyStr Re ReSpec.

Lemma star_greedy_sound {A : Type} (p : ascii -> bool) (s : str) :
  forall pos (k : nat -> str -> option A) x,
    star_greedy p pos s k = Some x ->
    exists t s',
      s = t ++ s' /\ Forall (fun c => p c = true) t /\
      k (pos + List.length t) s' = Some x.
Proof.
  induction s as [|c s IH]; intros pos k x H; cbn [star_greedy] in H.
  - exists [], []. rewrite Nat.add_0_r. auto.
  - destruct (p c) eqn:Hp.
    + destruct (star_greedy p (S pos) s k) as [y|] eqn:Hrec; cbn in H.
      * injection H as ->.
        destruct (IH _ _ _ Hrec) as (t & s' & -> & Ht & Hk).
        exists (c :: t), s'. cbn [List.length app].
        rewrite Nat.add_succ_r. auto.
      * exists [], (c :: s). rewrite Nat.add_0_r. auto.
    + exists [], (c :: s). rewrite Nat.add_0_r. auto.
Qed.

Lemma star_lazy_sound {A : Type} (p : ascii -> bool) (s : str) :
  forall pos (k : nat -> str -> option A) x,
    star_lazy p pos s k = Some x ->
    exists t s',
      s = t ++ s' /\ Forall (fun c => p c = true) t /\
      k (pos + List.length t) s' = Some x.
Proof.
  induction s as [|c s IH]; intros pos k x H; cbn [star_lazy] in H.
  - destruct (k pos []) as [y|] eqn:Hk; cbn in H; [|discriminate].
    injection H as ->. exists [], []. rewrite Nat.add_0_r. auto.
  - destruct (k pos (c :: s)) as [y|] eqn:Hk; cbn in H.
    + injection H as ->. exists [], (c :: s). rewrite Nat.add_0_r. auto.
    + destruct (p c) eqn:Hp; [|discriminate].
      destruct (IH _ _ _ H) as (t & s' & -> & Ht & Hk').
      exists (c :: t), s'. cbn [List.length app].
      rewrite Nat.add_succ_r. auto.
Qed.

Lemma eqb_char_eq (a b : ascii) : eqb_char a b = true -> a = b.
Proof. apply Ascii.eqb_eq. Qed.

(** A run that succeeds has matched a text the pattern allows, has gone
    on from behind it, and has added only captures of its groups. *)
Lemma run_sound {A : Type} (r : regex) :
  forall pos s cs (k : nat -> str -> captures -> option A) x,
    run r pos s cs k = Some x ->
    exists t s' cs',
      s = t ++ s' /\ matches r t /\
      k (pos + List.length t) s' cs' = Some x /\
      forall n u, In (n, u) cs' ->
                  In (n, u) cs \/
                  exists r', In (n, r') (groups r) /\ matches r' u.
Proof.
  induction r as [|c|p| |r1 IH1 r2 IH2|r1 IH1 r2 IH2|b p|n r1 IH1];
    intros pos s cs k x H; cbn [run] in H.
  - exists [], s, cs. rewrite Nat.add_0_r.
    repeat split; auto. constructor.
  - destruct s as [|d s]; [discriminate|].
    destruct (eqb_char c d) eqn:E; [|discriminate].
    apply eqb_char_eq in E as <-.
    exists [c], s, cs. cbn. rewrite Nat.add_1_r.
    repeat split; auto. constructor.
  - destruct s as [|d s]; [discriminate|].
    destruct (p d) eqn:E; [|discriminate].
    exists [d], s, cs. cbn. rewrite Nat.add_1_r.
    repeat split; auto. constructor. exact E.
  - destruct (pos =? 0); [|discriminate].
    exists [], s, cs. rewrite Nat.add_0_r.
    repeat split; auto. constructor.
  - destruct (IH1 _ _ _ _ _ H) as (t1 & s1 & cs1 & -> & M1 & H1 & C1).
    destruct (IH2 _ _ _ _ _ H1) as (t2 & s2 & cs2 & -> & M2 & H2 & C2).
    exists (t1 ++ t2), s2, cs2.
    rewrite <- app_assoc, length_app, Nat.add_assoc.
    repeat split; auto; [constructor; assumption|].
    intros n u Hin. cbn [groups].
    destruct (C2 n u Hin) as [Hin1 | (r' & Hg & Hm)].
    + destruct (C1 n u Hin1) as [Hin0 | (r' & Hg & Hm)]; [auto|].
      right. exists r'. split; [apply in_or_app; auto | exact Hm].
    + right. exists r'. split; [apply in_or_app; auto | exact Hm].
  - destruct (run r1 pos s cs k) as [y|] eqn:E1; cbn in H.
    + injection H as ->.
      destruct (IH1 _ _ _ _ _ E1) as (t & s' & cs' & -> & M & Hk & C).
      exists t, s', cs'. repeat split; auto;
        [apply matches_alt_l; exact M|].
      intros n u Hin. destruct (C n u Hin) as [?|(r' & Hg & Hm)]; [auto|].
      right. exists r'. cbn [groups]. split; [apply in_or_app; auto|exact Hm].
    + destruct (IH2 _ _ _ _ _ H) as (t & s' & cs' & -> & M & Hk & C).
      exists t, s', cs'. repeat split; auto;
        [apply matches_alt_r; exact M|].
      intros n u Hin. destruct (C n u Hin) as [?|(r' & Hg & Hm)]; [auto|].
      right. exists r'. cbn [groups]. split; [apply in_or_app; auto|exact Hm].
  - destruct b.
    + destruct (star_greedy_sound _ _ _ _ _ H) as (t & s' & -> & Ht & Hk).
      exists t, s', cs. repeat split; auto. constructor. exact Ht.
    + destruct (star_lazy_sound _ _ _ _ _ H) as (t & s' & -> & Ht & Hk).
      exists t, s', cs. repeat split; auto. constructor. exact Ht.
  - destruct (IH1 _ _ _ _ _ H) as (t & s' & cs' & -> & M & Hk & C).
    replace (pos + List.length t - pos) with (List.length t) in Hk by lia.
    rewrite firstn_app, firstn_all, Nat.sub_diag, firstn_0, app_nil_r in Hk.
    exists t, s', ((n, t) :: cs'). repeat split; auto;
      [constructor; exact M|].
    intros m u [[= <- <-] | Hin]; cbn [groups].
    + right. exists r1. split; [left; reflexivity | exact M].
    + destruct (C m u Hin) as [?|(r' & Hg & Hm)]; [auto|].
      right. exists r'. split; [right; exact Hg | exact Hm].
Qed.

Lemma match_at_sound (r : regex) (pos : nat) (s : str) (must : bool)
      (n : nat) (cs : captures) :
  match_at r pos s must = Some (n, cs) ->
  exists t s',
    s = t ++ s' /\ matches r t /\ n = List.length t /\
    forall g u, In (g, u) cs ->
                exists r', In (g, r') (groups r) /\ matches r' u.
Proof.
  unfold match_at. intros H.
  destruct (run_sound r _ _ _ _ _ H) as (t & s' & cs' & -> & M & Hk & C).
  destruct (must && (pos + List.length t =? pos)); [discriminate|].
  injection Hk as <- <-.
  exists t, s'. repeat split; auto; [lia|].
  intros g u Hin. destruct (C g u Hin) as [[]|Hr]. exact Hr.
Qed.

(** [re.search] finds a text the pattern allows, somewhere in the text
    searched, and its groups hold texts their patterns allow. *)
Lemma search_sound (r : regex) (s : str) (cs : captures) :
  search r s = Some cs ->
  exists before t after,
    s = before ++ t ++ after /\ matches r t /\
    forall g u, In (g, u) cs ->
                exists r', In (g, r') (groups r) /\ matches r' u.
Proof.
  unfold search. generalize 0 as pos.
  induction s as [|c s IH]; intros pos H; cbn [search_go] in H.
  - destruct (match_at r pos [] false) as [[n cs']|] eqn:E; [|discriminate].
    injection H as ->.
    destruct (match_at_sound _ _ _ _ _ _ E) as (t & s' & Hs & M & _ & C).
    exists [], t, s'. auto.
  - destruct (match_at r pos (c :: s) false) as [[n cs']|] eqn:E.
    + injection H as ->.
      destruct (match_at_sound _ _ _ _ _ _ E) as (t & s' & Hs & M & _ & C).
      exists [], t, s'. auto.
    + destruct (IH _ H) as (before & t & after & -> & M & C).
      exists (c :: before), t, after. auto.
Qed.

Lemma matches_Lit (w t : str) : matches (Lit w) t -> t = w.
Proof.
  revert t. induction w as [|c w IH]; intros t H.
  - inversion H. reflexivity.
  - destruct w as [|c' w].
    + inversion H. reflexivity.
    + change (Lit (c :: c' :: w)) with (Seq (Chr c) (Lit (c' :: w))) in H.
      inversion H as [| | | |? ? t1 t2 H1 H2| | | |]; subst.
      inversion H1; subst. rewrite (IH _ H2). reflexivity.
Qed.

Lemma startswith_app (p s : str) : startswith p (p ++ s) = true.
Proof.
  induction p as [|c p IH]; [reflexivity|]. simpl.
  unfold eqb_char. rewrite Ascii.eqb_refl. exact IH.
Qed.

Lemma contains_startswith (p s : str) :
  startswith p s = true -> contains p s = true.
Proof. intros H. destruct s; simpl; rewrite H; reflexivity. Qed.

Lemma contains_app_r (p a s : str) :
  contains p s = true -> contains p (a ++ s) = true.
Proof.
  intros H. induction a as [|c a IH]; [exact H|].
  simpl. rewrite IH. apply orb_true_r.
Qed.

Lemma startswith_app_l (p s b : str) :
  startswith p s = true -> startswith p (s ++ b) = true.
Proof.
  revert s. induction p as [|c p IH]; intros s H; [reflexivity|].
  destruct s as [|d s]; [discriminate|]. simpl in *.
  apply andb_true_iff in H as [H1 H2]. rewrite H1. simpl. apply IH. exact H2.
Qed.

Lemma contains_app_l (p s b : str) :
  contains p s = true -> contains p (s ++ b) = true.
Proof.
  induction s as [|c s IH]; intros H.
  - simpl in H. rewrite orb_false_r in H.
    destruct p; [|discriminate].
    destruct b; reflexivity.
  - simpl in H. apply orb_true_iff in H as [H | H].
    + apply contains_startswith. apply (startswith_app_l p (c :: s) b H).
    + simpl. rewrite (IH H). apply orb_true_r.
Qed.

Lemma contains_middle (p a b : str) : contains p (a ++ p ++ b) = true.
Proof.
  apply contains_app_r, contains_startswith, startswith_app.
Qed.

End MatcherSoundness.

(* ------------------------------------------------------------------ *)
(** * Properties of the generated prompt *)

Section PromptTextFacts.
Import PyStr Re ReSpec PromptText.

(** [find] gives the first place where the text starts. *)
Lemma find_from_spec (sub s : str) :
  forall i0 i,
    find_from sub s i0 = Some i ->
    i0 <= i /\
    startswith sub (skipn (i - i0) s) = true /\
    forall j, j < i - i0 -> startswith sub (skipn j s) = false.
Proof.
  induction s as [|c s IH]; intros i0 i H; cbn [find_from] in H.
  - destruct (startswith sub []) eqn:E; [|discriminate].
    injection H as <-. rewrite Nat.sub_diag. cbn.
    split; [lia|]. split; [exact E|]. intros j Hj. lia.
  - destruct (startswith sub (c :: s)) eqn:E.
    + injection H as <-. rewrite Nat.sub_diag. cbn.
      split; [lia|]. split; [exact E|]. intros j Hj. lia.
    + destruct (IH _ _ H) as (Hle & Hst & Hmin).
      split; [lia|].
      replace (i - i0) with (S (i - S i0)) by lia. cbn [skipn].
      split; [exact Hst|].
      intros [|j] Hj; [exact E|]. cbn [skipn]. apply Hmin. lia.
Qed.

Lemma with_aspect_has_aspect (p : str) :
  contains aspect_words (with_aspect p) = true.
Proof.
  unfold with_aspect. destruct (contains aspect_words p) eqn:E; cbn [negb].
  - exact E.
  - apply contains_app_r. vm_compute. reflexivity.
Qed.

Lemma with_aspect_keeps (q p : str) :
  contains q p = true -> contains q (with_aspect p) = true.
Proof.
  intros H. unfold with_aspect.
  destruct (negb (contains aspect_words p)); [|exact H].
  apply contains_app_l. exact H.
Qed.

(** The text from the first opening on still holds the whole match. *)
Lemma from_opening_has_style (g : str) (m : captures) (i : nat) :
  search pattern_prompt g = Some m ->
  find story_opening g = Some i ->
  startswith story_opening (skipn i g) = true /\
  contains style_words (skipn i g) = true.
Proof.
  intros Hs Hf.
  destruct (find_from_spec _ _ _ _ Hf) as (_ & Hst & Hmin).
  rewrite Nat.sub_0_r in Hst, Hmin. split; [exact Hst|].
  destruct (search_sound _ _ _ Hs) as (before & t & after & -> & M & _).
  unfold pattern_prompt in M.
  inversion M as [| | | |? ? t1 u1 M1 N1| | | |]; subst.
  inversion N1 as [| | | |? ? t2 u2 M2 N2| | | |]; subst.
  inversion N2 as [| | | |? ? t3 u3 M3 N3| | | |]; subst.
  inversion N3 as [| | | |? ? t4 u4 M4 N4| | | |]; subst.
  apply matches_Lit in M1, M3, N4. subst.
  assert (Hle : i <= List.length before).
  { destruct (Nat.le_gt_cases i (List.length before)) as [H|H]; [exact H|].
    specialize (Hmin _ H).
    rewrite skipn_app, skipn_all, Nat.sub_diag in Hmin. cbn [skipn app] in Hmin.
    change (lit "Generate a story about ") with (story_opening ++ lit " ")
      in Hmin.
    rewrite <- !app_assoc, startswith_app in Hmin. discriminate. }
  rewrite skipn_app.
  replace (i - List.length before) with 0 by lia. cbn [skipn].
  apply contains_app_r. rewrite <- !app_assoc.
  do 4 apply contains_app_r.
  change (lit " in a highly detailed 3d cartoon animation style")
    with (lit " in a " ++ style_words).
  rewrite <- app_assoc. apply contains_middle.
Qed.

Lemma repaired_has_its_parts (g : str) :
  contains story_opening (repaired g) = true /\
  contains style_words (repaired g) = true /\
  contains aspect_words (repaired g) = true.
Proof.
  unfold repaired.
  set (c0 := strip (replace (lit "```") [] g)).
  set (c1 := if negb (contains story_opening c0)
             then lit "Generate a story about " ++ c0 else c0).
  set (c2 := if negb (contains style_words c1)
             then c1 ++ lit " in a highly detailed 3d cartoon animation style"
             else c1).
  assert (H1 : contains story_opening c1 = true).
  { subst c1. destruct (contains story_opening c0) eqn:E; cbn [negb];
      [exact E|].
    change (lit "Generate a story about ") with (story_opening ++ lit " ").
    rewrite <- app_assoc. apply contains_startswith, startswith_app. }
  assert (H2 : contains style_words c2 = true /\
               contains story_opening c2 = true).
  { subst c2. destruct (contains style_words c1) eqn:E; cbn [negb];
      [split; [exact E | exact H1]|].
    split; [|apply contains_app_l; exact H1].
    apply contains_app_r. vm_compute. reflexivity. }
  destruct H2 as [H2 H3].
  split; [apply with_aspect_keeps; exact H3|].
  split; [apply with_aspect_keeps; exact H2|apply with_aspect_has_aspect].
Qed.

Lemma clean_up_has_its_parts (g : str) :
  contains story_opening (clean_up g) = true /\
  contains style_words (clean_up g) = true /\
  contains aspect_words (clean_up g) = true.
Proof.
  unfold clean_up, from_opening.
  destruct (search pattern_prompt g) as [m|] eqn:Hs;
    [destruct (find story_opening g) as [i|] eqn:Hf|];
    try apply repaired_has_its_parts.
  destruct (from_opening_has_style g m i Hs Hf) as [H1 H2].
  split; [apply with_aspect_keeps, contains_startswith; exact H1|].
  split; [apply with_aspect_keeps; exact H2|apply with_aspect_has_aspect].
Qed.

(** X10.  The prompt that is returned.  Whatever text the model generates,
    streamed or whole, the prompt [generate_prompt] returns contains the
    opening "Generate a story about", the words "highly detailed 3d
    cartoon animation style" and the aspect ratio "16:9". *)
Theorem generated_prompt_has_its_parts (r : reply) (p : str) :
  generate_prompt r = Some p ->
  contains story_opening p = true /\
  contains style_words p = true /\
  contains aspect_words p = true.
Proof.
  destruct r as [chunks|[t|]|]; cbn [generate_prompt];
    try discriminate; intros [= <-]; apply clean_up_has_its_parts.
Qed.

(** X11.  A prompt that is already complete.  A generated text that matches the
    pattern, starts with the opening and names the aspect ratio is
    returned as it is. *)
Theorem complete_prompt_is_kept (g : str) (m : captures) :
  search pattern_prompt g = Some m ->
  startswith story_opening g = true ->
  contains aspect_words g = true ->
  clean_up g = g.
Proof.
  intros Hs Hst Ha. unfold clean_up, from_opening, find.
  rewrite Hs.
  assert (Hf : find_from story_opening g 0 = Some 0)
    by (destruct g; cbn [find_from]; rewrite Hst; reflexivity).
  rewrite Hf. cbn [skipn]. unfold with_aspect. rewrite Ha. reflexivity.
Qed.

End PromptTextFacts.

(* ------------------------------------------------------------------ *)
(** * More on the default metadata *)

Section SeoLineFacts.
Import PyStr Re ReSpec Seo.






(** Without a character and a setting in the prompt the title is the full
    default title, which is not cut. *)
Lemma default_title_without_match (timestamp story_text prompt_text : str) :
  search pattern_char_setting prompt_text = None ->
  title (default_seo_metadata timestamp story_text prompt_text)
  = lit "Adventure of an animal in an adventure | Children's Story".
Proof.
  intros Hs. unfold default_seo_metadata. rewrite Hs. reflexivity.
Qed.

End SeoLineFacts.

(* ------------------------------------------------------------------ *)
(** * More on the images of a response *)

Section StreamFacts.
Import PyStr StoryGenerator StoryFlow.

Lemma save_parts_counts (temp_dir : str) (parts : list part) :
  forall files count,
    let '(files', count') := save_parts temp_dir parts files count in
    count' = count + List.length (filter has_inline_data parts) /\
    List.length files'
    = List.length files + List.length (filter is_saved parts).
Proof.
  induction parts as [|p parts IH]; intros files count; cbn [save_parts].
  - simpl. lia.
  - destruct p as [|[|]]; cbn [filter has_inline_data is_saved].
    + apply IH.
    + specialize (IH (files ++ [image_path temp_dir (S count)]) (S count)).
      destruct (save_parts temp_dir parts _ (S count)) as [files' count'].
      rewrite length_app in IH. simpl in *. lia.
    + specialize (IH files (S count)).
      destruct (save_parts temp_dir parts files (S count)) as [files' count'].
      simpl in *. lia.
Qed.

Lemma process_chunks_counts (temp_dir : str) (response : list chunk) :
  forall raw files count,
    let '(raw', files', count') :=
      process_chunks temp_dir response raw files count in
    raw' = raw ++ all_text response /\
    count' = count + List.length (filter has_inline_data (all_parts response))
    /\
    List.length files'
    = List.length files + List.length (filter is_saved (all_parts response)).
Proof.
  induction response as [|c response IH]; intros raw files count;
    cbn [process_chunks].
  - unfold all_text, all_parts. simpl. rewrite app_nil_r.
    split; [reflexivity|lia].
  - set (raw1 := match chunk_text c with
                 | Some t => if truthy t then raw ++ t else raw
                 | None => raw
                 end).
    assert (Hraw : raw1 = raw ++ match chunk_text c with
                                 | Some t => t
                                 | None => []
                                 end).
    { subst raw1. destruct (chunk_text c) as [[|a t]|]; simpl;
        rewrite ?app_nil_r; reflexivity. }
    unfold all_text, all_parts. cbn [map List.concat flat_map].
    rewrite !filter_app, !length_app.
    destruct (chunk_parts c) as [parts|].
    + pose proof (save_parts_counts temp_dir parts files count) as H1.
      destruct (save_parts temp_dir parts files count) as [files1 count1].
      specialize (IH raw1 files1 count1).
      destruct (process_chunks temp_dir response raw1 files1 count1)
        as [[raw2 files2] count2].
      destruct IH as (-> & -> & ->). destruct H1 as (-> & H1).
      rewrite Hraw, <- app_assoc. unfold all_text, all_parts.
      repeat split; lia.
    + specialize (IH raw1 files count).
      destruct (process_chunks temp_dir response raw1 files count)
        as [[raw2 files2] count2].
      destruct IH as (-> & -> & ->).
      rewrite Hraw, <- app_assoc. unfold all_text, all_parts.
      simpl. repeat split; lia.
Qed.

(** X14.  Text and counts of a streamed response.  The text returned is the
    texts of the chunks in order; the final image count is the number of
    parts with inline data, and there is one file for each of them that
    could be saved: a part that could not be saved uses up its number. *)
Theorem stream_text_and_counts (temp_dir : str) (response : list chunk) :
  let '(raw_text, image_files, image_count) :=
    attempt_stream_generation temp_dir response in
  raw_text = all_text response /\
  image_count = List.length (filter has_inline_data (all_parts response)) /\
  List.length image_files
  = List.length (filter is_saved (all_parts response)) /\
  List.length image_files <= image_count.
Proof.
  unfold attempt_stream_generation.
  pose proof (process_chunks_counts temp_dir response [] [] 0) as H.
  destruct (process_chunks temp_dir response [] [] 0) as [[raw files] count].
  destruct H as (-> & -> & ->). simpl.
  repeat split.
  induction (all_parts response) as [|[|[|]] l IH]; simpl; lia.
Qed.

End StreamFacts.

Section ImageNames.
Import PyStr StoryGenerator StoryFlow.

Lemma read_padded (k : nat) (l : str) :
  read_number (repeat "0"%char k ++ l) = read_number l.
Proof.
  unfold read_number. induction k as [|k IH]; [reflexivity|].
  cbn [repeat app string_of_list_ascii].
  change (NilEmpty.uint_of_string
            (String "0" (string_of_list_ascii (repeat "0"%char k ++ l))))
    with (uint_of_char "0"
            (NilEmpty.uint_of_string
               (string_of_list_ascii (repeat "0"%char k ++ l)))).
  rewrite <- IH.
  destruct (NilEmpty.uint_of_string
              (string_of_list_ascii (repeat "0"%char k ++ l))); reflexivity.
Qed.

(** The sequence number can be read back from the formatted text. *)
Lemma read_format_02d (n : nat) : read_number (format_02d n) = Some n.
Proof.
  unfold format_02d. rewrite read_padded.
  unfold read_number, decimal. rewrite string_of_list_ascii_of_string.
  assert (H : exists d, NilEmpty.uint_of_string
                          (NilZero.string_of_uint (Nat.to_uint n)) = Some d /\
                        Nat.of_uint d = n).
  { destruct (Nat.to_uint n) eqn:E;
      try (eexists; split; [apply NilEmpty.usu|];
           rewrite <- E; apply DecimalNat.Unsigned.of_to).
    exists Decimal.zero. split; [reflexivity|].
    rewrite <- (DecimalNat.Unsigned.of_to n), E. reflexivity. }
  destruct H as (d & -> & Hd). cbn [option_map]. rewrite Hd. reflexivity.
Qed.

Lemma image_path_inj (temp_dir : str) (a b : nat) :
  image_path temp_dir a = image_path temp_dir b -> a = b.
Proof.
  rewrite !image_path_prefix. unfold image_name. intros H.
  apply app_inv_head in H. apply app_inv_head in H.
  apply app_inv_tail in H.
  pose proof (read_format_02d a) as Ha. rewrite H, read_format_02d in Ha.
  injection Ha as ->. reflexivity.
Qed.

Lemma ascending_NoDup (l : list nat) : forall lo, ascending lo l -> NoDup l.
Proof.
  induction l as [|x l IH]; intros lo H; constructor.
  - destruct H as [_ H]. intros Hin.
    pose proof (ascending_above l x x H Hin). lia.
  - destruct H as [_ H]. apply (IH x). exact H.
Qed.

(** X15.  No image is overwritten.  The image files of one response are
    pairwise different paths, however many images there are. *)
Theorem stream_image_files_are_distinct (temp_dir : str)
        (response : list chunk) :
  let '(_, image_files, _) := attempt_stream_generation temp_dir response in
  NoDup image_files.
Proof.
  unfold attempt_stream_generation.
  pose proof (process_chunks_spec temp_dir response [] [] 0) as H.
  destruct (process_chunks temp_dir response [] [] 0) as [[raw files] count].
  destruct H as (_ & numbers & -> & Hasc & _). cbn [app].
  pose proof (ascending_NoDup _ 0 Hasc) as Hnd. clear Hasc.
  induction Hnd as [|n l Hn _ IH]; cbn [map]; constructor; [|exact IH].
  intros Hin. apply in_map_iff in Hin as (m & Heq & Hm).
  apply image_path_inj in Heq. subst m. exact (Hn Hm).
Qed.

End ImageNames.

(* ------------------------------------------------------------------ *)
(** * Properties of [generate] *)

Section StringOrder.
Import PyStr StoryGenerator.

Ltac order_cases :=
  repeat match goal with
         | H : context [?x <? ?y] |- _ => destruct (Nat.ltb_spec x y)
         | |- context [?x <? ?y] => destruct (Nat.ltb_spec x y)
         | H : context [?x =? ?y] |- _ => destruct (Nat.eqb_spec x y)
         | |- context [?x =? ?y] => destruct (Nat.eqb_spec x y)
         end; cbn [orb andb] in *; try discriminate; try reflexivity; try lia.

(** [a < b] excludes [b < a]. *)
Lemma str_ltb_asym (a : str) :
  forall b, str_ltb a b = true -> str_ltb b a = false.
Proof.
  induction a as [|x a IH]; intros [|y b] H; cbn [str_ltb] in *;
    try discriminate; try reflexivity.
  order_cases. apply IH. exact H.
Qed.

(** [a <= b] and [b <= c] give [a <= c], where [a <= b] is "not b < a". *)
Lemma str_le_trans (a : str) :
  forall b c,
    str_ltb b a = false -> str_ltb c b = false -> str_ltb c a = false.
Proof.
  induction a as [|x a IH]; intros [|y b] [|z c] H1 H2; cbn [str_ltb] in *;
    try discriminate; try reflexivity.
  order_cases. apply (IH b c); assumption.
Qed.

End StringOrder.

Section SortedTwice.
Import StoryGenerator.
Context {T : Type}.
Variable ltb : T -> T -> bool.
Hypothesis ltb_asym : forall a b, ltb a b = true -> ltb b a = false.
Hypothesis le_trans :
  forall a b c, ltb b a = false -> ltb c b = false -> ltb c a = false.

(** In order: no element is less than one before it. *)
Local Abbreviation in_order := (StronglySorted (fun a b => ltb b a = false)).

Lemma insert_in_order (x : T) (l : list T) :
  in_order l -> in_order (insert ltb x l).
Proof.
  induction 1 as [|y l Hl IH Hy]; cbn [insert].
  - constructor; constructor.
  - destruct (ltb x y) eqn:E.
    + constructor; [constructor; assumption|].
      constructor; [apply ltb_asym; exact E|].
      rewrite Forall_forall in *. intros z Hz.
      apply (le_trans x y z); [apply ltb_asym; exact E | apply Hy; exact Hz].
    + constructor; [exact IH|].
      rewrite Forall_forall in *. intros z Hz.
      apply In_insert in Hz as [-> | Hz]; [exact E | apply Hy; exact Hz].
Qed.

Lemma sorted_in_order (l : list T) : in_order (sorted ltb l).
Proof.
  unfold sorted.
  assert (H : forall acc, in_order acc ->
                in_order (fold_left (fun a x => insert ltb x a) l acc)).
  { induction l as [|x l IH]; intros acc Hacc; cbn [fold_left];
      [exact Hacc|].
    apply IH, insert_in_order, Hacc. }
  apply H. constructor.
Qed.

Lemma in_order_app_inv (acc : list T) (x : T) (l : list T) :
  in_order (acc ++ x :: l) -> forall y, In y acc -> ltb x y = false.
Proof.
  induction acc as [|a acc IH]; intros H y Hy; [destruct Hy|].
  cbn [app] in H. inversion H as [|? ? Hs Hall]; subst.
  destruct Hy as [<- | Hy]; [|apply IH; assumption].
  rewrite Forall_forall in Hall. apply Hall.
  apply in_or_app. right. left. reflexivity.
Qed.

Lemma sorted_of_in_order (l : list T) : in_order l -> sorted ltb l = l.
Proof.
  unfold sorted. intros H.
  assert (G : forall acc, in_order (acc ++ l) ->
                fold_left (fun a x => insert ltb x a) l acc = acc ++ l).
  { clear H. induction l as [|x l IH]; intros acc Hacc; cbn [fold_left].
    - symmetry. apply app_nil_r.
    - rewrite insert_last by (apply (in_order_app_inv acc x l Hacc)).
      rewrite IH; rewrite <- app_assoc; [reflexivity | exact Hacc]. }
  apply (G []). exact H.
Qed.

(** Sorting what is sorted changes nothing. *)
Lemma sorted_twice (l : list T) : sorted ltb (sorted ltb l) = sorted ltb l.
Proof. apply sorted_of_in_order, sorted_in_order. Qed.

Lemma sorted_nil_iff (l : list T) : sorted ltb l = [] -> l = [].
Proof.
  unfold sorted. destruct l as [|x l]; [reflexivity|]. cbn [fold_left].
  assert (H : forall (l : list T) acc,
             acc <> [] ->
             fold_left (fun a x => insert ltb x a) l acc <> []).
  { clear. induction l as [|y l IH]; intros acc Hacc; cbn [fold_left];
      [exact Hacc|].
    apply IH. destruct acc as [|a acc]; cbn [insert]; [discriminate|].
    destruct (ltb y a); discriminate. }
  intros E. exfalso. apply (H l (insert ltb x [])); [discriminate | exact E].
Qed.

End SortedTwice.

Section GenerateFacts.
Import PyStr StoryGenerator StoryFlow.

Lemma usable_cases (path : option str) (e : bool) :
  usable path e = None \/ exists p, usable path e = Some p.
Proof. destruct (usable path e); eauto. Qed.

Lemma build_result_guard (prompt : str) (content : str * list str) (w : world)
      (d : result_dict) :
  build_result prompt content w = Returns d ->
  d_story_text d = complete_story (fst content) /\
  d_story_text d <> [] /\
  d_image_files d = sorted str_ltb (snd content) /\
  d_image_files d <> [] /\
  d_prompt_text d = prompt /\
  d_temp_dir d = temp_dir w.
Proof.
  destruct content as [raw images]. unfold build_result.
  destruct (lacking (raw, images)) eqn:Hl; [discriminate|].
  destruct (truthy (complete_story raw)) eqn:Ht; cbn [negb]; [|discriminate].
  destruct (story_file_written w); cbn [negb]; [|discriminate].
  assert (Himg : sorted str_ltb images <> []).
  { intros E. apply sorted_nil_iff in E. subst images.
    unfold lacking in Hl. cbn in Hl. rewrite orb_true_r in Hl. discriminate. }
  assert (Hst : complete_story raw <> [])
    by (intros E; rewrite E in Ht; discriminate).
  destruct (usable (audio_file w) (audio_exists w));
    [destruct (usable (video_file w) (video_exists w))|];
    intros [= <-]; cbn; auto 10.
Qed.

Lemma generate_result_facts
        (use_prompt_generator : bool) (prompt_input : str) (w : world)
        (d : result_dict) :
  generate use_prompt_generator prompt_input w = Returns d ->
  d_story_text d <> [] /\
  d_image_files d <> [] /\
  sorted str_ltb (d_image_files d) = d_image_files d /\
  (d_prompt_text d = prompt_input \/
   (use_prompt_generator = true /\ d_prompt_text d <> [] /\
    prompt_call w = PromptGenerator.Returned (Some (d_prompt_text d)))).
Proof.
  unfold generate.
  destruct (choose_prompt use_prompt_generator prompt_input w) as [e|prompt]
    eqn:Hp; [discriminate|].
  destruct (client_error w); [discriminate|].
  destruct (fst (fetch_content (stream_call w) (non_stream_call w)))
    as [e|content]; [discriminate|].
  intros H. apply build_result_guard in H as (_ & H1 & H2 & H3 & H4 & _).
  split; [exact H1|]. split; [exact H3|]. split.
  - rewrite H2. apply sorted_twice; [apply str_ltb_asym | apply str_le_trans].
  - rewrite H4. unfold choose_prompt in Hp.
    destruct use_prompt_generator; [|injection Hp as <-; auto].
    destruct (prompt_call w) as [[p|]|e] eqn:Hc; try discriminate;
      [|injection Hp as <-; auto].
    destruct (truthy p) eqn:Ht; injection Hp as <-; [|auto].
    right. repeat split. intros E. rewrite E in Ht. discriminate.
Qed.

(** X17.  What [generate] hands on.  Every dictionary [generate] returns has a
    story text that is not empty and a list of image files that is not
    empty and is in sorted order; its prompt is the generated prompt, or
    the input where none (or an empty one) was generated. *)
Theorem generate_returns_story_and_sorted_images
        (use_prompt_generator : bool) (prompt_input : str) (w : world)
        (d : result_dict) :
  generate use_prompt_generator prompt_input w = Returns d ->
  d_story_text d <> [] /\
  d_image_files d <> [] /\
  sorted str_ltb (d_image_files d) = d_image_files d /\
  (d_prompt_text d = prompt_input \/
   (use_prompt_generator = true /\ d_prompt_text d <> [] /\
    prompt_call w = PromptGenerator.Returned (Some (d_prompt_text d)))).
Proof. apply generate_result_facts. Qed.

(** X19.  The story that comes out of the retries.  When [retry_story_generation]
    runs [generate] and returns a result, that result has both keys, a
    story text that is not empty and splits into at least six segments,
    and at least six image files in sorted order. *)
Theorem retried_story_is_complete
        (use_prompt_generator : bool) (prompt_input : str)
        (worlds : nat -> world) (r : story_result) :
  fst (retry_story_generation
         (fun n => as_generation
                     (generate use_prompt_generator prompt_input (worlds n))))
  = Some r ->
  exists text images,
    story_text r = Some text /\ image_files r = Some images /\
    text <> [] /\
    MIN_STORY_SEGMENTS <= List.length (Utils.story_segments_of text) /\
    MIN_STORY_SEGMENTS <= List.length images /\
    sorted str_ltb images = images.
Proof.
  unfold retry_story_generation.
  set (run := fun n => as_generation
                         (generate use_prompt_generator prompt_input
                                   (worlds n))).
  pose proof (attempts_spec run max_retries 0) as H.
  destruct (attempts run max_retries 0) as [returned n]. cbn [fst].
  intros ->. destruct H as (_ & _ & _ & Hrun & Hs).
  unfold run in Hrun.
  destruct (generate use_prompt_generator prompt_input (worlds (n - 1)))
    as [e| |d] eqn:Hg; cbn [as_generation] in Hrun; try discriminate.
  injection Hrun as <-.
  destruct (generate_result_facts _ _ _ _ Hg) as (H1 & H2 & H3 & _).
  exists (d_story_text d), (d_image_files d).
  cbn [story_text image_files]. split; [reflexivity|]. split; [reflexivity|].
  split; [exact H1|].
  unfold sufficient in Hs. cbn [story_text image_files] in Hs.
  apply andb_true_iff in Hs as [Ha Hb]. apply Nat.leb_le in Ha, Hb.
  auto.
Qed.

(** X16.  The fall-back to the non-streaming generation.  It is called at most
    twice, and not at all when the streaming generation gave a text and
    images, which are then the content. *)
Theorem non_stream_is_called_at_most_twice
        (stream : PromptGenerator.result (str * list str))
        (non_stream : nat -> PromptGenerator.result (str * list str)) :
  snd (fetch_content stream non_stream) <= 2 /\
  (forall content,
      stream = PromptGenerator.Returned (Some content) ->
      lacking content = false ->
      fetch_content stream non_stream = (inr content, 0)).
Proof.
  split.
  - unfold fetch_content, fall_back.
    destruct (unpack stream) as [e|content].
    + destruct (caught e); cbn; lia.
    + destruct (lacking content); [|cbn; lia].
      destruct (unpack (non_stream 0)) as [e|c']; [|cbn; lia].
      destruct (caught e); cbn; lia.
  - intros content -> Hl. unfold fetch_content. cbn [unpack].
    rewrite Hl. reflexivity.
Qed.


End GenerateFacts.

(* ------------------------------------------------------------------ *)
(** * The properties above at concrete inputs *)

Section MoreExamples.
Import PyStr PromptGenerator Backoff.
Local Open Scope Z_scope.




Lemma calls_and_sleeps_are_bounded_witness :
  exists r st,
    retry_api_call module_globals (Inputs.always_raises Inputs.boom)
                   MAX_CONSECUTIVE_FAILURES RETRY_DELAY
    = Some (r, st) /\
    1 <= Z.of_nat (calls st) <= MAX_CONSECUTIVE_FAILURES /\
    S (List.length (sleeps st)) = calls st.
Proof.
  apply (calls_and_sleeps_are_bounded
           module_globals (Inputs.always_raises Inputs.boom)
           MAX_CONSECUTIVE_FAILURES RETRY_DELAY).
  unfold MAX_CONSECUTIVE_FAILURES. lia.
Defined.

Lemma later_sleeps_are_capped_witness :
  sleeps (mkState 4 60 false 5 [60; 40; 20; 10]) = [] \/
  exists later first,
    sleeps (mkState 4 60 false 5 [60; 40; 20; 10]) = later ++ [first] /\
    (first = RETRY_DELAY \/ first = 60) /\
    Forall (fun d => d <= 60) later.
Proof.
  apply (later_sleeps_are_capped
           Inputs.globals_with_custom_genai
           (MoreInputs.fails_then_returns 4 MoreInputs.server_error 7)
           MAX_CONSECUTIVE_FAILURES RETRY_DELAY (Returned (Some 7%nat))).
  vm_compute. reflexivity.
Defined.

End MoreExamples.

Section MoreTextExamples.
Import PyStr Re Utils PromptText.

Lemma blank_text_gives_nothing_witness :
  collect_complete_story [" "%char; nl; " "%char] true = Segments [].
Proof.
  apply (blank_text_gives_nothing [" "%char; nl; " "%char] true).
  repeat constructor.
Defined.

Lemma generated_prompt_has_its_parts_witness :
  contains story_opening (clean_up (lit "a brave duck")) = true /\
  contains style_words (clean_up (lit "a brave duck")) = true /\
  contains aspect_words (clean_up (lit "a brave duck")) = true.
Proof.
  apply (generated_prompt_has_its_parts
           (Whole (Some (lit "a brave duck")))).
  reflexivity.
Defined.

Lemma complete_prompt_is_kept_witness :
  clean_up MoreInputs.complete_prompt = MoreInputs.complete_prompt.
Proof.
  assert (H : exists m,
             search pattern_prompt MoreInputs.complete_prompt = Some m).
  { vm_compute. eexists. reflexivity. }
  destruct H as [m Hm].
  apply (complete_prompt_is_kept MoreInputs.complete_prompt m Hm);
    vm_compute; reflexivity.
Defined.

End MoreTextExamples.

Section MoreStoryExamples.
Import PyStr StoryGenerator StoryFlow.

Lemma generate_returns_story_and_sorted_images_witness :
  exists d,
    generate true Inputs.goat_prompt MoreInputs.good_world = Returns d /\
    d_story_text d <> [] /\
    d_image_files d <> [] /\
    sorted str_ltb (d_image_files d) = d_image_files d.
Proof.
  assert (H : exists d,
             generate true Inputs.goat_prompt MoreInputs.good_world
             = Returns d).
  { vm_compute. eexists. reflexivity. }
  destruct H as [d Hd]. exists d. split; [exact Hd|].
  destruct (generate_returns_story_and_sorted_images
              true Inputs.goat_prompt MoreInputs.good_world d Hd)
    as (H1 & H2 & H3 & _).
  auto.
Defined.

Lemma retried_story_is_complete_witness :
  exists r text images,
    fst (retry_story_generation
           (fun n => as_generation
                       (generate true Inputs.goat_prompt
                                 (if n <? 2 then MoreInputs.hopeless_world
                                  else MoreInputs.good_world))))
    = Some r /\
    story_text r = Some text /\ image_files r = Some images /\
    text <> [] /\
    MIN_STORY_SEGMENTS <= List.length (Utils.story_segments_of text) /\
    MIN_STORY_SEGMENTS <= List.length images /\
    sorted str_ltb images = images.
Proof.
  assert (H : exists r,
             fst (retry_story_generation
                    (fun n => as_generation
                                (generate true Inputs.goat_prompt
                                          (if n <? 2
                                           then MoreInputs.hopeless_world
                                           else MoreInputs.good_world))))
             = Some r).
  { vm_compute. eexists. reflexivity. }
  destruct H as [r Hr]. exists r.
  destruct (retried_story_is_complete
              true Inputs.goat_prompt
              (fun n => if n <? 2 then MoreInputs.hopeless_world
                        else MoreInputs.good_world) r Hr)
    as (text & images & H).
  exists text, images. split; [exact Hr | exact H].
Defined.


(** The small response: its text, its two files and its count of
    three. *)
Lemma small_response_summary :
  attempt_stream_generation (lit "/tmp/tmpab12") MoreInputs.small_response
  = (lit "Once upon a time there was a goat.",
     [lit "/tmp/tmpab12/image_01.png"; lit "/tmp/tmpab12/image_03.png"],
     3).
Proof. vm_compute. reflexivity. Qed.

End MoreStoryExamples.

(* ------------------------------------------------------------------ *)
(** * Texts without digits *)

Section NoDigits.
Import PyStr Re Utils ReSpec.
Local Open Scope re_scope.

Local Abbreviation no_digit := (Forall (fun c => isdecimal c = false)).

Ltac find_digit :=
  repeat match goal with
         | H : matches (Seq _ _) _ |- _ => inversion H; subst; clear H
         | H : matches (Alt _ _) _ |- _ => inversion H; subst; clear H
         | H : matches (Cls digit) _ |- _ => inversion H; subst; clear H
         end;
  match goal with
  | H : digit ?d = true |- _ =>
      exists d; split; [rewrite ?in_app_iff; simpl; tauto | exact H]
  end.

(** Every match of each of the three patterns holds a digit. *)
Lemma pattern_segment_has_digit (t : str) :
  matches pattern_segment t -> exists c, In c t /\ isdecimal c = true.
Proof. unfold pattern_segment, Plus, Opt. intros H. find_digit. Qed.

Lemma pattern_number_has_digit (t : str) :
  matches pattern_number t -> exists c, In c t /\ isdecimal c = true.
Proof. unfold pattern_number, Plus, Opt. intros H. find_digit. Qed.

Lemma pattern_image_has_digit (t : str) :
  matches pattern_image t -> exists c, In c t /\ isdecimal c = true.
Proof. unfold pattern_image, Plus, Opt. intros H. find_digit. Qed.

(** A pattern whose matches hold a digit matches nowhere in a text
    without digits. *)
Lemma no_match_without_digit (r : regex) (pos : nat) (s : str) (must : bool) :
  (forall t, matches r t -> exists c, In c t /\ isdecimal c = true) ->
  no_digit s -> match_at r pos s must = None.
Proof.
  intros Hr Hs.
  destruct (match_at r pos s must) as [[n cs]|] eqn:E; [|reflexivity].
  destruct (match_at_sound _ _ _ _ _ _ E) as (t & s' & -> & M & _).
  destruct (Hr t M) as (c & Hin & Hd).
  rewrite Forall_forall in Hs.
  rewrite (Hs c) in Hd; [discriminate | apply in_or_app; auto].
Qed.

(** Without a match the scan gives the text back in one piece. *)
Lemma pieces_go_no_match (r : regex) (s : str) :
  (forall t, matches r t -> exists c, In c t /\ isdecimal c = true) ->
  no_digit s ->
  forall pos cur, pieces_go r pos s 0 cur = [rev cur ++ s].
Proof.
  intros Hr. induction s as [|c s IH]; intros Hs pos cur; cbn [pieces_go].
  - rewrite (no_match_without_digit r pos [] false Hr Hs).
    rewrite app_nil_r. reflexivity.
  - rewrite (no_match_without_digit r pos (c :: s) false Hr Hs).
    rewrite IH; [|inversion Hs; assumption].
    simpl. rewrite <- app_assoc. reflexivity.
Qed.

Lemma lstrip_keeps (P : ascii -> Prop) (s : str) :
  Forall P s -> Forall P (lstrip s).
Proof.
  induction 1 as [|c s Hc Hs IH]; simpl; [constructor|].
  destruct (isspace c); [exact IH | constructor; assumption].
Qed.

Lemma strip_keeps (P : ascii -> Prop) (s : str) :
  Forall P s -> Forall P (strip s).
Proof.
  intros H. unfold strip, rstrip.
  apply Forall_rev, lstrip_keeps, Forall_rev, lstrip_keeps, H.
Qed.

Lemma one_piece_is_too_few (text : str) :
  (3 <=? List.length (stripped_nonempty [text])) = false.
Proof.
  unfold stripped_nonempty. simpl.
  destruct (truthy (strip text)); reflexivity.
Qed.

Lemma try_patterns_without_digit (text : str) :
  no_digit text -> try_patterns segment_patterns text = [].
Proof.
  intros H. unfold segment_patterns. cbn [try_patterns].
  unfold potential_segments, Re.split.
  rewrite (pieces_go_no_match _ text pattern_segment_has_digit H).
  rewrite (pieces_go_no_match _ text pattern_number_has_digit H).
  rewrite (pieces_go_no_match _ text pattern_image_has_digit H).
  cbn [rev app]. rewrite one_piece_is_too_few. reflexivity.
Qed.

(** X9.  Each of the three marker patterns needs a digit, so a text
    without any decimal digit is never split by them: its segments are
    the paragraphs between blank lines that pass the final clean-up. *)
Theorem text_without_digits_is_split_into_paragraphs (raw_text : str) :
  Forall (fun c => isdecimal c = false) raw_text ->
  story_segments_of raw_text = final_cleanup (paragraphs (strip raw_text)).
Proof.
  intros H. unfold story_segments_of, collect_complete_story.
  rewrite (try_patterns_without_digit _ (strip_keeps _ _ H)).
  reflexivity.
Qed.

Lemma text_without_digits_is_split_into_paragraphs_witness :
  story_segments_of Inputs.two_paragraphs
  = final_cleanup (paragraphs (strip Inputs.two_paragraphs)).
Proof.
  apply (text_without_digits_is_split_into_paragraphs Inputs.two_paragraphs).
  repeat constructor.
Defined.

End NoDigits.

(* ------------------------------------------------------------------ *)
(** * The reply without its fences *)

Section FenceFacts.
Import PyStr SeoReply.

Local Abbreviation tick := "`"%char.
#[local] Opaque eqb_char.

(** The text begins with one backtick, with two. *)
Local Abbreviation first1 :=
  (fun s : str => match s with a :: _ => eqb_char tick a | [] => false end).
Local Abbreviation first2 :=
  (fun s : str =>
     match s with a :: s' => eqb_char tick a && first1 s' | [] => false end).

Lemma startswith_fence (s : str) :
  startswith fence s =
  match s with a :: s' => eqb_char tick a && first2 s' | [] => false end.
Proof.
  destruct s as [|a [|b [|c s']]]; cbn; rewrite ?andb_false_r, ?andb_true_r;
    reflexivity.
Qed.

Lemma replace_fence_skip (a b c : ascii) (s : str) :
  startswith fence (a :: b :: c :: s) = true ->
  replace_go fence [] (a :: b :: c :: s) 0 = replace_go fence [] s 0.
Proof. intros H. cbn [replace_go]. rewrite H. reflexivity. Qed.

Lemma replace_fence_keep (a : ascii) (s : str) :
  startswith fence (a :: s) = false ->
  replace_go fence [] (a :: s) 0 = a :: replace_go fence [] s 0.
Proof. intros H. cbn [replace_go]. rewrite H. reflexivity. Qed.

Lemma fence_has_three (s : str) :
  startswith fence s = true -> exists a b c s', s = a :: b :: c :: s'.
Proof.
  destruct s as [|a [|b [|c s']]]; rewrite startswith_fence;
    rewrite ?andb_false_r; try discriminate.
  intros _. exists a, b, c, s'. reflexivity.
Qed.

(** Where the result begins with backticks the text did. *)
Lemma replace_first1 (s : str) :
  first1 (replace_go fence [] s 0) = true -> first1 s = true.
Proof.
  destruct (startswith fence s) eqn:E.
  - intros _. rewrite startswith_fence in E. destruct s; [discriminate|].
    apply andb_true_iff in E. tauto.
  - destruct s as [|a s]; [discriminate|].
    rewrite (replace_fence_keep _ _ E). auto.
Qed.

Lemma replace_first2 (s : str) :
  first2 (replace_go fence [] s 0) = true -> first2 s = true.
Proof.
  destruct (startswith fence s) eqn:E.
  - intros _. rewrite startswith_fence in E. destruct s; [discriminate|].
    apply andb_true_iff in E. destruct E as [E1 E2].
    destruct s as [|b s]; [discriminate|].
    apply andb_true_iff in E2. destruct E2 as [E2 _].
    rewrite E1, E2. reflexivity.
  - destruct s as [|a s]; [discriminate|].
    rewrite (replace_fence_keep _ _ E). intros H.
    apply andb_true_iff in H. destruct H as [H1 H2].
    rewrite H1, (replace_first1 _ H2). reflexivity.
Qed.

(** What is left when the fences are replaced holds no fence. *)
Lemma replace_fence_free (n : nat) :
  forall s, List.length s <= n ->
            contains fence (replace_go fence [] s 0) = false.
Proof.
  induction n as [|n IH]; intros s Hn.
  - destruct s; [reflexivity | simpl in Hn; lia].
  - destruct (startswith fence s) eqn:E.
    + destruct (fence_has_three _ E) as (a & b & c & s' & ->).
      rewrite (replace_fence_skip _ _ _ _ E).
      apply IH. simpl in Hn. lia.
    + destruct s as [|a s]; [reflexivity|].
      rewrite (replace_fence_keep _ _ E).
      cbn [contains]. rewrite (IH s) by (simpl in Hn; lia).
      rewrite orb_false_r, startswith_fence.
      rewrite startswith_fence in E.
      destruct (eqb_char tick a); [|reflexivity]. cbn [andb] in E |- *.
      destruct (first2 (replace_go fence [] s 0)) eqn:F; [|reflexivity].
      rewrite (replace_first2 _ F) in E. discriminate.
Qed.

Lemma no_fence_after_replace (s : str) :
  contains fence (replace fence [] s) = false.
Proof. apply (replace_fence_free (List.length s)). lia. Qed.

Lemma lstrip_suffix (s : str) : exists a, s = a ++ lstrip s.
Proof.
  induction s as [|c s (a & IH)]; [exists []; reflexivity|].
  simpl. destruct (isspace c).
  - exists (c :: a). simpl. f_equal. exact IH.
  - exists []. reflexivity.
Qed.

Lemma strip_inside (s : str) : exists a b, s = a ++ strip s ++ b.
Proof.
  unfold strip, rstrip.
  destruct (lstrip_suffix s) as (a & Ha).
  destruct (lstrip_suffix (rev (lstrip s))) as (b & Hb).
  exists a, (rev b). rewrite <- rev_app_distr, <- Hb, rev_involutive.
  exact Ha.
Qed.

Lemma contains_strip (p s : str) :
  contains p s = false -> contains p (strip s) = false.
Proof.
  intros H. destruct (contains p (strip s)) eqn:E; [|reflexivity].
  destruct (strip_inside s) as (a & b & Hs).
  rewrite Hs in H.
  rewrite (contains_app_r p a _ (contains_app_l p _ b E)) in H.
  discriminate.
Qed.

Lemma startswith_longer (p q : str) :
  forall s, startswith (p ++ q) s = true -> startswith p s = true.
Proof.
  induction p as [|c p IH]; intros s H; [reflexivity|].
  destruct s as [|d s]; [discriminate|].
  cbn [app startswith] in H |- *.
  apply andb_true_iff in H. destruct H as [H1 H2].
  rewrite H1, (IH _ H2). reflexivity.
Qed.

Lemma startswith_json_fence (s : str) :
  startswith json_fence s = true -> startswith fence s = true.
Proof. apply (startswith_longer fence (lit "json")). Qed.

(** X13.  A reply that begins with a markdown fence reaches the JSON
    parser without any fence: replacing the three backticks leaves no
    run of three behind, also where the first replacement, of the fence
    with its language tag, has joined two runs of backticks. *)
Theorem fenced_reply_is_unfenced (response_text : str) :
  startswith fence (strip response_text) = true ->
  contains fence (json_text response_text) = false.
Proof.
  unfold json_text. intros H.
  destruct (startswith json_fence (strip response_text)).
  - apply contains_strip, no_fence_after_replace.
  - rewrite H. apply contains_strip, no_fence_after_replace.
Qed.

Lemma fenced_reply_is_unfenced_witness :
  contains fence (json_text MediaInputs.fenced_reply) = false.
Proof.
  apply (fenced_reply_is_unfenced MediaInputs.fenced_reply).
  vm_compute. reflexivity.
Defined.

End FenceFacts.

(* ------------------------------------------------------------------ *)
(** * The audio of a story *)

Section AudioFacts.
Import PyStr Re Utils StoryGenerator Audio.

(** The pieces of a scan hold only characters of the text. *)
Lemma pieces_go_keeps (P : ascii -> Prop) (r : regex) (s : str) :
  forall pos skip cur,
    Forall P cur -> Forall P s ->
    Forall (Forall P) (pieces_go r pos s skip cur).
Proof.
  induction s as [|c s IH]; intros pos skip cur Hc Hs.
  - destruct skip as [|k]; cbn [pieces_go].
    + destruct (match_at r pos [] false) as [[[|n] cs]|].
      * destruct (match_at r pos [] true) as [[[|m] cs']|];
          repeat constructor; apply Forall_rev; assumption.
      * repeat constructor. apply Forall_rev; assumption.
      * repeat constructor. apply Forall_rev; assumption.
    + repeat constructor. apply Forall_rev; assumption.
  - assert (Hc' : P c) by (inversion Hs; assumption).
    assert (Hs' : Forall P s) by (inversion Hs; assumption).
    destruct skip as [|k]; cbn [pieces_go].
    + destruct (match_at r pos (c :: s) false) as [[[|n] cs]|].
      * constructor; [apply Forall_rev; assumption|].
        destruct (match_at r pos (c :: s) true) as [[[|m] cs']|].
        -- apply IH; [repeat constructor; assumption | assumption].
        -- constructor; [constructor|]. apply IH; [constructor | assumption].
        -- apply IH; [repeat constructor; assumption | assumption].
      * constructor; [apply Forall_rev; assumption|].
        apply IH; [constructor | assumption].
      * apply IH; [constructor; assumption | assumption].
    + apply IH; assumption.
Qed.

Lemma stripped_nonempty_blank (l : list str) :
  Forall (Forall (fun c => isspace c = true)) l -> stripped_nonempty l = [].
Proof.
  unfold stripped_nonempty.
  induction 1 as [|x l Hx _ IH]; [reflexivity|].
  simpl. rewrite (strip_spaces x Hx). exact IH.
Qed.

Lemma paragraphs_blank (text : str) :
  Forall (fun c => isspace c = true) text -> paragraphs text = [].
Proof.
  intros H. unfold paragraphs. apply stripped_nonempty_blank.
  apply pieces_go_keeps; [constructor | exact H].
Qed.

(** X20.  A story of whitespace only (the empty story included) has no
    paragraph to speak: the function returns None, whatever the
    pipeline and the files do. *)
Theorem blank_story_gives_no_audio (w : world) (story_text output_dir : str) :
  Forall (fun c => isspace c = true) story_text ->
  generate_audio_from_text w story_text output_dir = None.
Proof.
  intros H. unfold generate_audio_from_text.
  rewrite (paragraphs_blank _ H).
  destruct (pipeline w); [|reflexivity].
  destruct (makedirs w); reflexivity.
Qed.

Lemma blank_story_gives_no_audio_witness :
  generate_audio_from_text MediaInputs.quiet_world [" "%char; nl; nl; " "%char]
                           (lit "/tmp/tmpab12")
  = None.
Proof.
  apply (blank_story_gives_no_audio MediaInputs.quiet_world).
  repeat constructor.
Defined.









(** The six paragraphs give six segments of three samples and five
    silences. *)
Lemma six_paragraphs_audio_length :
  option_map (fun r => Z.of_nat (List.length (snd r)))
             (generate_audio_from_text MediaInputs.quiet_world
                                       MoreInputs.six_paragraphs
                                       (lit "/tmp/tmpab12"))
  = Some 60018%Z.
Proof. vm_compute. reflexivity. Qed.

End AudioFacts.

(* ------------------------------------------------------------------ *)
(** * The files of the video *)

Section VideoFileFacts.
Import PyStr StoryGenerator VideoFiles.

Lemma resized_from_spec (resize : str -> bool) (resize_dir : str)
      (image_files : list str) :
  forall k,
    List.length (resized_from resize resize_dir k image_files)
    = List.length image_files /\
    forall i img_path,
      nth_error image_files i = Some img_path ->
      nth_error (resized_from resize resize_dir k image_files) i
      = Some (if resize img_path
              then path_join resize_dir (resized_name (k + i))
              else img_path).
Proof.
  induction image_files as [|x l IH]; intros k; cbn [resized_from].
  - split; [reflexivity|]. intros [|i] p H; discriminate.
  - destruct (IH (S k)) as [IH1 IH2]. split; [simpl; rewrite IH1; reflexivity|].
    intros [|i] p H.
    + injection H as ->. rewrite Nat.add_0_r. reflexivity.
    + cbn [nth_error] in H |- *. rewrite (IH2 i p H).
      replace (S k + i) with (k + S i) by lia. reflexivity.
Qed.

(** X22.  Every image keeps its place in [resized_images]: the list has
    the length of [image_files], and its entry for the image at index
    [i] is the resized copy numbered [i+1], or the original file when
    the resizing fails.  With at least one image [total_images] is
    therefore not zero. *)
Theorem every_image_keeps_its_place (resize : str -> bool)
        (output_dir : str) (image_files : list str) :
  List.length (resized_images resize output_dir image_files)
  = List.length image_files /\
  forall i img_path,
    nth_error image_files i = Some img_path ->
    nth_error (resized_images resize output_dir image_files) i
    = Some (if resize img_path
            then path_join (path_join output_dir (lit "resized_images"))
                           (resized_name i)
            else img_path).
Proof.
  unfold resized_images.
  destruct (resized_from_spec resize
              (path_join output_dir (lit "resized_images")) image_files 0)
    as [H1 H2].
  split; [exact H1|]. intros i p H. exact (H2 i p H).
Qed.














End VideoFileFacts.
